(** * sigma: structure coefficients and death-birth simulation on graphs

    A shallow embedding of [sigma/exact.py] and [sigma/simulation.py].

    Numbers.  The Python code computes with NumPy doubles.  The embedding
    computes in an arbitrary real field [F] (exact arithmetic), so every
    statement below is about the values the code computes when rounding is
    ignored; an exact equality here is what the tests check up to their
    tolerance.

    Matrices are MathComp matrices ['M[F]_N]; a NumPy vector of length [N]
    is a row ['rV[F]_N] (or a column where the code builds an [(N, 1)]
    array).  SciPy's solvers, NumPy's random generator and joblib's
    [Parallel] are libraries outside the repository: the solvers are
    parameters constrained by their contract, the generator is a finite
    distribution monad, and [Parallel] is a scheduler model. *)

From HB Require Import structures.
From Stdlib Require Import String Ascii.
From Stdlib Require List.
From mathcomp Require Import boot order algebra.

Set Implicit Arguments.
Unset Strict Implicit.
Unset Printing Implicit Defensive.

Import GRing.Theory Num.Theory Order.Theory.
Local Open Scope ring_scope.

(** ** Python values, exceptions and strings *)

HB.instance Definition _ := hasDecEq.Build ascii Ascii.eqb_spec.
HB.instance Definition _ := hasDecEq.Build string String.eqb_spec.

(** The exceptions the two modules raise, with their messages. *)
Inductive exn : Type :=
| TypeError of string
| ValueError of string
| IndexError of string.

(** A Python call either returns or raises. *)
Inductive result (T : Type) : Type :=
| Return of T
| Raise of exn.

Arguments Raise {T} _.

Definition rbind {T U : Type} (r : result T) (k : T -> result U) : result U :=
  match r with
  | Return x => k x
  | Raise e => Raise e
  end.

Notation "x <-- r ;; k" := (rbind r (fun x => k))
  (at level 61, r at next level, right associativity).

Definition returns {T : Type} (r : result T) : bool :=
  if r is Return _ then true else false.

(** [isinstance(e, TypeError)] or [isinstance(e, ValueError)]: the errors the
    specification files under "invalid argument". *)
Definition is_invalid_argument (e : exn) : bool :=
  match e with
  | TypeError _ | ValueError _ => true
  | IndexError _ => false
  end.

(** [str.lower] on ASCII text. *)
Definition lower_ascii (ch : ascii) : ascii :=
  let k := nat_of_ascii ch in
  if (65 <= k)%N && (k <= 90)%N then ascii_of_nat (k + 32) else ch.

Fixpoint lower (s : string) : string :=
  match s with
  | EmptyString => EmptyString
  | String ch s' => String (lower_ascii ch) (lower s')
  end.

Section PythonValues.

Variable F : realFieldType.

(** A dynamically typed argument: the constructors are the Python classes the
    [isinstance] tests of the code tell apart.  [bool] is a subclass of
    [int] in Python. *)
Inductive pyval : Type :=
| PyNone
| PyBool of bool
| PyInt of int
| PyFloat of F
| PyStr of string.

Definition isinstance_str (v : pyval) : bool :=
  if v is PyStr _ then true else false.

Definition isinstance_float (v : pyval) : bool :=
  if v is PyFloat _ then true else false.

Definition isinstance_int (v : pyval) : bool :=
  match v with
  | PyInt _ | PyBool _ => true
  | _ => false
  end.

(** The number a numeric Python value denotes. *)
Definition num_of (v : pyval) : F :=
  match v with
  | PyBool b => b%:R
  | PyInt z => z%:~R
  | PyFloat x => x
  | _ => 0
  end.

End PythonValues.

Arguments PyNone {F}.
Arguments PyBool {F} _.
Arguments PyInt {F} _.
Arguments PyStr {F} _.

Definition msg_good_type : string := "Social good must be a string.".
Definition msg_good_value : string := "Social good must be 'ff' or 'pp'.".
Definition msg_solver_type : string := "Solver must be a string.".
Definition msg_solver_value : string := "Solver must be 'spsolve' or 'lsqr'.".

(** ** exact.py: the frequency derivative *)

Section FrequencyDerivative.

Variable F : realFieldType.
Variable N : nat.

(** [np.diag(X)] of a square array and [np.sum] of a vector. *)
Definition np_diag (X : 'M[F]_N) : 'rV[F]_N := \row_i X i i.
Definition np_sum_row (u : 'rV[F]_N) : F := \sum_i u 0 i.

(** [np.multiply(X, Y)] and [np.sum] of a two-dimensional array. *)
Definition np_multiply (X Y : 'M[F]_N) : 'M[F]_N := \matrix_(i, j) (X i j * Y i j).
Definition np_sum (X : 'M[F]_N) : F := \sum_i \sum_j X i j.

Definition frequency_derivative (K1 K2 w A : 'M[F]_N) (b c : F)
    (social_good : pyval F) : result F :=
  match social_good with
  | PyStr s =>
      if lower s \notin [:: "ff"%string; "pp"%string]
      then Raise (ValueError msg_good_value)
      else if lower s == "ff"%string
      then Return ((1 / 2) * (np_sum_row (np_diag (A *m (K1 - K2))) * b
                              - np_sum_row (np_diag (A^T *m (K1 + K2))) * c))
      else
        let K1_pp := np_sum (np_multiply K1 w) in
        let K2_pp := np_sum (np_multiply K2 w) in
        Return ((1 / 2) * ((K1_pp - K2_pp) * b - (K1_pp + K2_pp) * c))
  | _ => Raise (TypeError msg_good_type)
  end.

(** The two closed forms of the specification. *)
Definition additive_effect (K1 K2 A : 'M[F]_N) (b c : F) : F :=
  2^-1 * (\tr (A *m (K1 - K2)) * b - \tr (A^T *m (K1 + K2)) * c).

Definition proportional_effect (K1 K2 w : 'M[F]_N) (b c : F) : F :=
  let K1p := \sum_i \sum_j K1 i j * w i j in
  let K2p := \sum_i \sum_j K2 i j * w i j in
  2^-1 * ((K1p - K2p) * b - (K1p + K2p) * c).

End FrequencyDerivative.

(** ** exact.py: random walks, reproductive values, identity by state *)

Section Exact.

Variable F : realFieldType.

(** [scipy.sparse.linalg.spsolve] and [scipy.sparse.linalg.lsqr] (first
    component of its result), taken as parameters. *)
Definition linear_solver : Type := forall m : nat, 'M[F]_m -> 'cV[F]_m -> 'cV[F]_m.

Variables spsolve lsqr : linear_solver.

Variable N : nat.

(** The graph enters the exact engine only through
    [nx.adjacency_matrix(structure)], so [structure] is that matrix. *)
Definition random_walk_probabilities (structure : 'M[F]_N) :
    'M[F]_N * 'M[F]_N * 'M[F]_N * 'rV[F]_N :=
  let w := structure in
  let A := \matrix_(i, j) (w i j * (1 / \sum_k w i k)) in
  let e := \matrix_(i, j) (A^T i j / N%:R) in
  let d := \row_k \sum_i e i k in
  (w, A, e, d).

(** The components of the tuple [random_walk_probabilities] returns. *)
Definition transition_matrix (structure : 'M[F]_N) : 'M[F]_N :=
  (random_walk_probabilities structure).1.1.2.
Definition marginal_transmission (structure : 'M[F]_N) : 'M[F]_N :=
  (random_walk_probabilities structure).1.2.
Definition death_probabilities (structure : 'M[F]_N) : 'rV[F]_N :=
  (random_walk_probabilities structure).2.

Definition location_weights (e : 'M[F]_N) (d : 'rV[F]_N) (mutation_rate : F) :
    'rV[F]_N :=
  let population_size := N in
  let tilde_A :=
    1%:M - (1 - mutation_rate) *: (\matrix_(i, k) (e^T i k * (1 / d 0 k))) in
  let tilde_v :=
    spsolve tilde_A^T (\col__ (mutation_rate * 1 / population_size%:R)) in
  \row_k (tilde_v k 0 / d 0 k).

(** Flat index [i * N + j] of the pair [(i, j)], and the two halves
    [r // N] and [r % N] of a flat index. *)
Lemma pair_index_subproof (i j : 'I_N) : (i * N + j < N * N)%N.
Proof.
apply: (@leq_trans (i * N + N)%N); first by rewrite ltn_add2l.
by rewrite addnC -mulSn leq_mul2r ltn_ord orbT.
Qed.

Lemma index_hi_subproof (r : 'I_(N * N)) : (r %/ N < N)%N.
Proof.
case: r => r /= rN; case: (posnP N) => [N0|Npos]; last by rewrite ltn_divLR.
by rewrite N0 in rN.
Qed.

Lemma index_lo_subproof (r : 'I_(N * N)) : (r %% N < N)%N.
Proof.
case: r => r /= rN; case: (posnP N) => [N0|Npos]; last by rewrite ltn_pmod.
by rewrite N0 in rN.
Qed.

Definition pair_index (i j : 'I_N) : 'I_(N * N) := Ordinal (pair_index_subproof i j).
Definition index_hi (r : 'I_(N * N)) : 'I_N := Ordinal (index_hi_subproof r).
Definition index_lo (r : 'I_(N * N)) : 'I_N := Ordinal (index_lo_subproof r).

(** [sp.kron(B, C)] for two [N x N] matrices. *)
Definition kron (B C : 'M[F]_N) : 'M[F]_(N * N) :=
  \matrix_(r, c) (B (index_hi r) (index_hi c) * C (index_lo r) (index_lo c)).

(** One pass of the loop of [identity_by_state_probabilities]: the row of the
    pair [(i, i)] is cleared, its diagonal entry and right-hand side set to 1. *)
Definition boundary_row (Mb : 'M[F]_(N * N) * 'cV[F]_(N * N)) (i : 'I_N) :
    'M[F]_(N * N) * 'cV[F]_(N * N) :=
  let: (M, b) := Mb in
  let row := pair_index i i in
  let M1 := \matrix_(r, c) (if (r == row) && (M row c != 0) then 0 else M r c) in
  let M2 := \matrix_(r, c) (if (r == row) && (c == row) then 1 else M1 r c) in
  let b1 := \col_r (if r == row then 1 else b r 0) in
  (M2, b1).

(** The system the function hands to the solver. *)
Definition identity_by_state_system (A : 'M[F]_N) (mutation_rate : F) :
    'M[F]_(N * N) * 'cV[F]_(N * N) :=
  let M := 1%:M - ((1 - mutation_rate) * (1 / 2)) *: (kron 1%:M A + kron A 1%:M) in
  let b := \col__ (mutation_rate * (1 / 2) * 1) in
  foldl boundary_row (M, b) (enum 'I_N).

(** [x.reshape((N, N), order='F')]: entry [(i, j)] is [x[i + j * N]]. *)
Definition reshape_F (x : 'cV[F]_(N * N)) : 'M[F]_N :=
  \matrix_(i, j) x (pair_index j i) 0.

Definition identity_by_state_probabilities (A : 'M[F]_N) (mutation_rate : F)
    (solver : pyval F) : result 'M[F]_N :=
  let: (M, b) := identity_by_state_system A mutation_rate in
  match solver with
  | PyStr s =>
      if lower s \notin [:: "spsolve"%string; "lsqr"%string]
      then Raise (ValueError msg_solver_value)
      else
        let x := if lower s == "spsolve"%string then spsolve M b else lsqr M b in
        Return (reshape_F x)
  | _ => Raise (TypeError msg_solver_type)
  end.

Definition marginal_fecundity_effects (A : 'M[F]_N) : 'I_N -> 'M[F]_N :=
  fun i =>
    let population_size := N in
    let m0 := \matrix_(r, c) (- (A r c * A r i) / population_size%:R) in
    \matrix_(r, c) (if c == i then m0 r c + A r i / population_size%:R else m0 r c).

(** NumPy broadcasting of a column against a matrix, and of a scalar. *)
Definition col_plus (u : 'cV[F]_N) (X : 'M[F]_N) : 'M[F]_N :=
  \matrix_(i, k) (u i 0 + X i k).
Definition col_minus (u : 'cV[F]_N) (X : 'M[F]_N) : 'M[F]_N :=
  \matrix_(i, k) (u i 0 - X i k).
Definition plus_scalar (X : 'M[F]_N) (t : F) : 'M[F]_N :=
  \matrix_(i, k) (X i k + t).

(** Body of the loop over [j] in [structure_coefficients]. *)
Definition structure_term (m : 'I_N -> 'M[F]_N) (v : 'rV[F]_N) (phi : 'M[F]_N)
    (mutation_rate : F) (K : 'M[F]_N * 'M[F]_N) (j : 'I_N) : 'M[F]_N * 'M[F]_N :=
  let: (K1, K2) := K in
  let mj := m j in
  let phi_j : 'rV[F]_N := row j phi in
  let term1 : 'cV[F]_N := (v *m np_multiply mj phi)^T in
  let term2 : 'M[F]_N := (\matrix_(i, k) (v^T i 0 * mj i k))^T *m phi in
  let term3 : 'cV[F]_N := (\row_k ((v *m mj) 0 k * phi_j 0 k))^T in
  let term4 : 'M[F]_N := (v *m mj)^T *m phi_j in
  let term5 : F := np_sum_row (v *m mj) / N%:R in
  (K1 + (1 / (2 * mutation_rate))
        *: plus_scalar (- col_plus term1 term2
                        + (1 - mutation_rate) *: col_plus term3 term4) term5,
   K2 + (1 / (2 * mutation_rate))
        *: (- col_minus term1 term2 + (1 - mutation_rate) *: col_minus term3 term4)).

Definition structure_coefficients (structure : 'M[F]_N) (mutation_rate : F)
    (solver : pyval F) : result ('M[F]_N * 'M[F]_N * 'M[F]_N * 'M[F]_N) :=
  let: (w, A, e, d) := random_walk_probabilities structure in
  let m := marginal_fecundity_effects A in
  let v := location_weights e d mutation_rate in
  phi <-- identity_by_state_probabilities A mutation_rate solver ;;
  let: (K1, K2) :=
    foldl (structure_term m v phi mutation_rate) (0, 0) (enum 'I_N) in
  Return (K1, K2, w, A).

End Exact.

(** ** NumPy's random generator: finite distributions *)

Section Distributions.

Variable F : realFieldType.

(** A finite distribution: outcomes with their weights.  An outcome may be
    listed more than once; its probability is the sum of its weights. *)
Definition dist (T : Type) : Type := seq (F * T).

Definition dret {T : Type} (x : T) : dist T := [:: (1, x)].

Definition dbind {T U : Type} (d : dist T) (k : T -> dist U) : dist U :=
  flatten [seq [seq (px.1 * qy.1, qy.2) | qy <- k px.2] | px <- d].

(** Probability of an event, total mass, and the possible outcomes. *)
Definition Pr {T : Type} (d : dist T) (P : T -> bool) : F :=
  \sum_(px <- d | P px.2) px.1.

Definition mass {T : Type} (d : dist T) : F := Pr d xpredT.

Definition outcomes {T : Type} (d : dist T) : seq T := [seq px.2 | px <- d].

(** Sequencing of random computations that may raise. *)
Definition drbind {T U : Type} (d : dist (result T)) (k : T -> dist (result U)) :
    dist (result U) :=
  dbind d (fun r => match r with
                    | Return x => k x
                    | Raise e => dret (Raise e)
                    end).

Definition uniform {T : Type} (s : seq T) : dist T :=
  [seq (1 / (size s)%:R, x) | x <- s].

(** [np.random.randint(n)]: uniform on [0, n); raises for [n = 0]. *)
Definition np_random_randint (n : nat) : dist (result nat) :=
  if n == 0%N then dret (Raise (ValueError "high <= 0"))
  else [seq (px.1, Return px.2) | px <- uniform (iota 0 n)].

(** [np.random.randint(0, 2, n)]: [n] independent fair bits. *)
Fixpoint np_random_randint_array (n : nat) : dist (seq int) :=
  match n with
  | 0%N => dret [::]
  | n'.+1 =>
      dbind (uniform [:: 0%:Z; 1%:Z]) (fun x =>
      dbind (np_random_randint_array n') (fun s => dret (x :: s)))
  end.

(** [np.random.choice(a, p=p)]: element [a[j]] with probability [p[j]];
    raises unless [p] is a probability vector over a non-empty [a]. *)
Definition np_random_choice (a : seq nat) (p : seq F) : dist (result nat) :=
  if (a == [::]) || (size p != size a) || ~~ all (fun x => 0 <= x) p
     || (\sum_(x <- p) x != 1)
  then dret (Raise (ValueError "invalid arguments to choice"))
  else [seq (xp.2, Return xp.1) | xp <- zip a p].

(** The event [np.random.rand() < t] for a uniform draw from [0, 1). *)
Definition np_random_rand_lt (t : F) : dist bool :=
  let q := Num.min 1 (Num.max 0 t) in
  [:: (q, true); (1 - q, false)].

(** [np.max] of a one-dimensional array; raises on an empty one. *)
Definition np_max (l : seq F) : result F :=
  match l with
  | [::] => Raise (ValueError "zero-size array to reduction operation maximum")
  | x :: l' => Return (foldl Num.max x l')
  end.

(** Python's [sum] of a list and [np.mean] of a one-dimensional array. *)
Definition py_sum (l : seq F) : F := foldl +%R 0 l.
Definition np_mean (l : seq F) : F := (\sum_(x <- l) x) / (size l)%:R.

End Distributions.

Arguments dret {F T} x.

Notation "x <~ d ;; k" := (drbind d (fun x => k))
  (at level 61, d at next level, right associativity).

(** ** joblib's Parallel *)

Record monad : Type := Monad {
  m_carrier :> Type -> Type;
  m_ret : forall T : Type, T -> m_carrier T;
  m_bind : forall T U : Type, m_carrier T -> (T -> m_carrier U) -> m_carrier U
}.

Definition identity_monad : monad :=
  Monad (fun T x => x) (fun T U x k => k x).

Definition dist_monad (F : realFieldType) : monad :=
  Monad (fun T => @dret F T) (fun T U => @dbind F T U).

Section ParallelModel.

Variable M : monad.
Variable T : Type.

(** [Parallel(n_jobs)(tasks)]: the tasks share no state, so a parallel run is
    a run in some order, the argument [order] (the indices of the tasks in
    the order in which they run).  Each result is stored in the slot of its
    task; the first task that raises aborts the run and its exception is
    raised to the caller.  The first component of the value is the log of the
    tasks that were started. *)
Fixpoint run_tasks (tasks : seq (M (result T))) (order : seq nat)
    (slots : seq (option T)) (started : seq nat) :
    M (seq nat * result (seq (option T)))%type :=
  match order with
  | [::] => m_ret M (started, Return slots)
  | k :: order' =>
      match nth None [seq Some t | t <- tasks] k with
      | None => run_tasks tasks order' slots started
      | Some task =>
          m_bind task (fun r =>
            match r with
            | Return y =>
                run_tasks tasks order' (set_nth None slots k (Some y))
                  (rcons started k)
            | Raise e => m_ret M (rcons started k, Raise e)
            end)
      end
  end.

Definition Parallel (order : seq nat) (tasks : seq (M (result T))) :
    M (seq nat * result (seq T))%type :=
  m_bind (run_tasks tasks order (nseq (size tasks) None) [::]) (fun lr =>
    m_ret M (lr.1, slots <-- lr.2 ;; Return (pmap id slots))).

End ParallelModel.

(** ** exact.py: the calculation runner *)

Section RunCalculations.

Variable F : realFieldType.
Variables spsolve lsqr : linear_solver F.
Variable N : nat.

(** What [np.asarray] makes of the list of results: a list of pairs becomes
    an array with two columns, the empty list an empty one-dimensional
    array. *)
Inductive ndarray : Type :=
| Array1 of seq F
| Array2 of seq (seq F).

Definition np_asarray_pairs (l : seq (F * F)) : ndarray :=
  if l is [::] then Array1 [::] else Array2 [seq [:: p.1; p.2] | p <- l].

(** [arr[:, k]] *)
Definition column (k : nat) (arr : ndarray) : result (seq F) :=
  match arr with
  | Array1 _ => Raise (IndexError "too many indices for array")
  | Array2 rows => Return [seq nth 0 r k | r <- rows]
  end.

(** The task of one mutation rate (the printing under [verbose] is left
    out: it does not change what is returned). *)
Definition run_single_calculation (structure : 'M[F]_N) (b c : F)
    (solver : pyval F) (mutation_rate : F) : result (F * F) :=
  K <-- structure_coefficients spsolve lsqr structure mutation_rate solver ;;
  let: (K1, K2, w, A) := K in
  ff <-- frequency_derivative K1 K2 w A b c (PyStr "ff") ;;
  pp <-- frequency_derivative K1 K2 w A b c (PyStr "pp") ;;
  Return (ff, pp).

Definition run_calculations (order : seq nat) (structure : 'M[F]_N) (b c : F)
    (mutation_rates : seq F) (solver : pyval F) :
    seq nat * result (seq F * seq F) :=
  let: (started, r) :=
    Parallel (M := identity_monad) order
      [seq run_single_calculation structure b c solver mutation_rate
      | mutation_rate <- mutation_rates] in
  (started,
   l <-- r ;;
   let selection_effects := np_asarray_pairs l in
   ff <-- column 0 selection_effects ;;
   pp <-- column 1 selection_effects ;;
   Return (ff, pp)).

End RunCalculations.

(** ** simulation.py: the population *)

(** What the simulation asks of a networkx graph whose nodes are
    [0 .. number_of_nodes - 1]: [nx.number_of_nodes], [nx.neighbors] (as a
    list) and [nx.degree]. *)
Record graph : Type := Graph {
  number_of_nodes : nat;
  neighbors : nat -> seq nat;
  degree : nat -> nat
}.

Definition msg_state : string := "Each individual must have a state.".
Definition msg_rate_type : string := "Mutation rate must be a real number.".
Definition msg_rate_value : string := "Mutation rate must be in [0, 1].".
Definition msg_intensity_type : string := "Selection intensity must be a real number.".
Definition msg_intensity_value : string := "Selection intensity must be non-negative.".

Section Simulation.

Variable F : realFieldType.

(** [np.exp] *)
Variable exp : F -> F.

Record Population : Type := mkPopulation {
  _structure : graph;
  _population_size : nat;
  _state : seq int;
  _social_good : string;
  _b : F;
  _c : F;
  _mutation_rate : F;
  _selection_intensity : F
}.

Definition str_of (v : pyval F) : string :=
  if v is PyStr s then s else EmptyString.

(** [Population.__init__] *)
Definition Population_init (structure : graph) (state : seq int)
    (social_good : pyval F) (b c : F) (mutation_rate selection_intensity : pyval F) :
    result Population :=
  let population_size := number_of_nodes structure in
  if size state != population_size then Raise (ValueError msg_state)
  else if ~~ isinstance_str social_good then Raise (TypeError msg_good_type)
  else if lower (str_of social_good) \notin [:: "ff"%string; "pp"%string]
  then Raise (ValueError msg_good_value)
  else if ~~ (isinstance_float mutation_rate || isinstance_int mutation_rate)
  then Raise (TypeError msg_rate_type)
  else if (num_of mutation_rate < 0) || (num_of mutation_rate > 1)
  then Raise (ValueError msg_rate_value)
  else if ~~ (isinstance_float selection_intensity
              || isinstance_int selection_intensity)
  then Raise (TypeError msg_intensity_type)
  else if num_of selection_intensity < 0
  then Raise (ValueError msg_intensity_value)
  else Return (mkPopulation structure population_size state
                 (lower (str_of social_good)) b c
                 (num_of mutation_rate) (num_of selection_intensity)).

(** [trait] is an [int] or [None]. *)
Definition mean_frequency (pop : Population) (trait : option int) : F :=
  (size [seq val <- _state pop | Some val == trait])%:R
  / (_population_size pop)%:R.

(** The payoff of one individual, as the body of the loop of [payoff]
    computes it. *)
Definition individual_payoff (pop : Population) (individual : nat) : F :=
  let nbrs := neighbors (_structure pop) individual in
  let state := _state pop in
  if _social_good pop == "ff"%string
  then (nth 0 state individual)%:~R * (- _c pop)
       + py_sum [seq (nth 0 state neighbor)%:~R
                     * (_b pop / (degree (_structure pop) neighbor)%:R)
                | neighbor <- nbrs]
  else (nth 0 state individual)%:~R
         * (- _c pop * (degree (_structure pop) individual)%:R)
       + py_sum [seq (nth 0 state neighbor)%:~R * _b pop | neighbor <- nbrs].

(** [payoffs[subset.index(individual)] = ...] for each individual in turn. *)
Definition payoff (pop : Population) (subset : seq nat) : seq F :=
  foldl (fun payoffs individual =>
           set_nth 0 payoffs (index individual subset)
             (individual_payoff pop individual))
        (nseq (size subset) 0) subset.

Definition with_state (pop : Population) (state : seq int) : Population :=
  mkPopulation (_structure pop) (_population_size pop) state (_social_good pop)
    (_b pop) (_c pop) (_mutation_rate pop) (_selection_intensity pop).

(** One pass of the loop of [update_population], with the three draws it
    made next to the population it leaves. *)
Record update_event : Type := UpdateEvent {
  ev_death : nat;
  ev_birth : nat;
  ev_mutated : bool;
  ev_population : Population
}.

Definition update_once (pop : Population) : dist F (result update_event) :=
  death <~ np_random_randint F (_population_size pop) ;;
  let nbrs := neighbors (_structure pop) death in
  let neighbor_payoffs := payoff pop nbrs in
  top <~ dret (np_max neighbor_payoffs) ;;
  let neighbor_fitness :=
    [seq exp (_selection_intensity pop * (p - top)) | p <- neighbor_payoffs] in
  birth <~ np_random_choice nbrs
             [seq f / (\sum_(g <- neighbor_fitness) g) | f <- neighbor_fitness] ;;
  dbind (np_random_rand_lt (_mutation_rate pop / 2)) (fun mutated =>
  let state := _state pop in
  let offspring := if mutated then 1 - nth 0 state birth else nth 0 state birth in
  dret (Return (UpdateEvent death birth mutated
                  (with_state pop (set_nth 0 state death offspring))))).

Fixpoint update_loop (trait : option int) (updates : seq nat) (pop : Population)
    (mean_frequencies : seq F) : dist F (result (Population * seq F)) :=
  match updates with
  | [::] => dret (Return (pop, mean_frequencies))
  | update :: updates' =>
      ev <~ update_once pop ;;
      let pop' := ev_population ev in
      update_loop trait updates' pop'
        (set_nth 0 mean_frequencies update (mean_frequency pop' trait))
  end.

(** [Population.update_population]: the population after the updates, and
    the returned array ([None] when no trait is given). *)
Definition update_population (pop : Population) (trait : option int)
    (number_of_updates : nat) : dist F (result (Population * option (seq F))) :=
  r <~ update_loop trait (iota 0 number_of_updates) pop
         (nseq number_of_updates 0) ;;
  dret (Return (r.1, if trait != None then Some r.2 else None)).

(** The task of one mutation rate; the rates are the entries of a float
    array, and [np.mean(None)] raises. *)
Definition run_single_simulation (structure : graph) (social_good : pyval F)
    (b c : F) (selection_intensity : pyval F) (number_of_updates : nat)
    (trait : option int) (mutation_rate : F) : dist F (result F) :=
  dbind (np_random_randint_array F (number_of_nodes structure)) (fun state =>
  pop <~ dret (Population_init structure state social_good b c
                 (PyFloat mutation_rate) selection_intensity) ;;
  r <~ update_population pop trait number_of_updates ;;
  match r.2 with
  | Some mean_frequencies => dret (Return (np_mean mean_frequencies))
  | None => dret (Raise (TypeError "unsupported operand type: NoneType"))
  end).

Definition run_simulations (order : seq nat) (structure : graph)
    (social_good : pyval F) (b c : F) (mutation_rates : seq F)
    (selection_intensity : pyval F) (number_of_updates : nat)
    (trait : option int) : dist F (seq nat * result (seq F)) :=
  Parallel (M := dist_monad F) order
    [seq run_single_simulation structure social_good b c selection_intensity
           number_of_updates trait mutation_rate
    | mutation_rate <- mutation_rates].

End Simulation.

(** * Vocabulary of the statements *)

Section SolverContracts.

Variable F : realFieldType.

(** A direct solver returns the solution of a non-singular system, and a
    least-squares solver a minimiser of the squared residual. *)
Definition residual m (M : 'M[F]_m) (b x : 'cV[F]_m) : F :=
  \sum_i ((M *m x - b) i 0) ^+ 2.

Definition solves_nonsingular (solve : linear_solver F) : Prop :=
  forall m (M : 'M[F]_m) (b : 'cV[F]_m),
    M \in unitmx -> M *m solve m M b = b.

Definition minimises_residual (solve : linear_solver F) : Prop :=
  forall m (M : 'M[F]_m) (b : 'cV[F]_m),
    M \in unitmx -> forall y, residual M b (solve m M b) <= residual M b y.

(** The solver selectors [identity_by_state_probabilities] accepts, and the
    exception it raises on the others. *)
Definition valid_solver (s : string) : bool :=
  lower s \in [:: "spsolve"%string; "lsqr"%string].

Definition valid_solver_arg (solver : pyval F) : bool :=
  if solver is PyStr s then valid_solver s else false.

Definition solver_error (solver : pyval F) : exn :=
  if isinstance_str solver then ValueError msg_solver_value
  else TypeError msg_solver_type.

End SolverContracts.

Section ExactVocabulary.

Variable F : realFieldType.
Variables spsolve lsqr : linear_solver F.
Variable N : nat.

(** The vector [tilde_v] that [location_weights] obtains from the solver,
    with the transition matrix in place of [e^T * diag(1/d)]. *)
Definition tilde_v (w : 'M[F]_N) (mu : F) : 'cV[F]_N :=
  spsolve (1%:M - (1 - mu) *: transition_matrix w)^T (\col__ (mu * 1 / N%:R)).

(** The flat vector of a matrix, inverse of [reshape_F]. *)
Definition flatten_F (phi : 'M[F]_N) : 'cV[F]_(N * N) :=
  \col_r phi (index_lo r) (index_hi r).

(** The flat indices [i * N + i] of the diagonal pairs. *)
Definition diagonal_pair (r : 'I_(N * N)) : bool := index_hi r == index_lo r.

(** The equations the entries of the solution satisfy: the right factor
    of the second sum is [phi i a], as the Kronecker products give it. *)
Definition ibs_equations (A : 'M[F]_N) (mu : F) (phi : 'M[F]_N) : Prop :=
  forall i j,
    phi i j = if i == j then 1
              else mu / 2 + (1 - mu) / 2
                   * (\sum_s A i s * phi s j + \sum_a A j a * phi i a).

(** The pair of effects a task computes for one mutation rate. *)
Definition single_effects (structure : 'M[F]_N) (b c : F) (solver : pyval F)
    (mu : F) : F * F :=
  if run_single_calculation spsolve lsqr structure b c solver mu is Return p
  then p else (0, 0).

End ExactVocabulary.

Section SimulationVocabulary.

Variable F : realFieldType.
Variable exp : F -> F.

(** [x] is one of the outcomes the distribution lists. *)
Definition listed {T : Type} (d : dist F T) (x : T) : Prop :=
  exists p, List.In (p, x) d.

(** The inputs the constructor accepts, and the exception for a bad label. *)
Definition is_real (v : pyval F) : bool := isinstance_float v || isinstance_int v.

Definition valid_state (G : graph) (state : seq int) : bool :=
  size state == number_of_nodes G.

Definition valid_good (good : pyval F) : bool :=
  if good is PyStr s then lower s \in [:: "ff"%string; "pp"%string] else false.

Definition valid_rate (rate : pyval F) : bool :=
  is_real rate && (0 <= num_of rate <= 1).

Definition valid_intensity (intensity : pyval F) : bool :=
  is_real intensity && (0 <= num_of intensity).

Definition good_error (good : pyval F) : exn :=
  if isinstance_str good then ValueError msg_good_value
  else TypeError msg_good_type.

(** The payoffs of the specification. *)
Definition additive_payoff (pop : Population F) (i : nat) : F :=
  let G := _structure pop in
  - _c pop * (nth 0 (_state pop) i)%:~R
  + \sum_(k <- neighbors G i) (nth 0 (_state pop) k)%:~R * _b pop / (degree G k)%:R.

Definition proportional_payoff (pop : Population F) (i : nat) : F :=
  let G := _structure pop in
  - _c pop * (degree G i)%:R * (nth 0 (_state pop) i)%:~R
  + \sum_(k <- neighbors G i) (nth 0 (_state pop) k)%:~R * _b pop.

Definition spec_payoff (pop : Population F) (i : nat) : F :=
  if _social_good pop == "ff"%string then additive_payoff pop i
  else proportional_payoff pop i.

(** A population as the constructor makes it, on a graph whose nodes all
    have neighbours (listed once, and nodes of the graph). *)
Record valid_population (pop : Population F) : Prop := ValidPopulation {
  valid_size : (0 < _population_size pop)%N;
  valid_state_size : size (_state pop) = _population_size pop;
  valid_neighbors : forall k, (k < _population_size pop)%N ->
    [/\ neighbors (_structure pop) k != [::], uniq (neighbors (_structure pop) k)
      & all (fun l => (l < _population_size pop)%N) (neighbors (_structure pop) k)];
  valid_rate_range : 0 <= _mutation_rate pop <= 1
}.

(** The largest payoff among the neighbours of [death]. *)
Definition max_payoff (pop : Population F) (death : nat) : F :=
  \big[Num.max/individual_payoff pop (head 0%N (neighbors (_structure pop) death))]_(l <- neighbors (_structure pop) death)
    individual_payoff pop l.

Definition birth_weight (pop : Population F) (death birth : nat) : F :=
  exp (_selection_intensity pop * (individual_payoff pop birth - max_payoff pop death)).

Definition birth_probability (pop : Population F) (death birth : nat) : F :=
  birth_weight pop death birth
  / \sum_(l <- neighbors (_structure pop) death) birth_weight pop death l.

(** The population after [death] is replaced by the offspring of [birth]. *)
Definition offspring (pop : Population F) (birth : nat) (mutated : bool) : int :=
  if mutated then 1 - nth 0 (_state pop) birth else nth 0 (_state pop) birth.

Definition replaced (pop : Population F) (death birth : nat) (mutated : bool) :
    Population F :=
  with_state pop (set_nth 0 (_state pop) death (offspring pop birth mutated)).

Definition drawn (pop : Population F) (death birth : nat) (mutated : bool) :
    result (update_event F) :=
  Return (UpdateEvent death birth mutated (replaced pop death birth mutated)).

(** The transition relation of the population. *)
Definition death_birth_step (pop pop' : Population F) : Prop :=
  exists death birth mutated,
    [/\ (death < _population_size pop)%N,
        birth \in neighbors (_structure pop) death
      & pop' = replaced pop death birth mutated].

Fixpoint trajectory (pop : Population F) (pops : seq (Population F)) : Prop :=
  match pops with
  | [::] => True
  | pop' :: pops' => death_birth_step pop pop' /\ trajectory pop' pops'
  end.


End SimulationVocabulary.

(** * Instances *)

(** A solver by matrix inversion. *)
Definition inverse_solver (F : realFieldType) : linear_solver F :=
  fun m M b => invmx M *m b.

Arguments inverse_solver F m M b : clear implicits.

(** The path on three nodes, as an adjacency matrix and as a graph. *)
Definition path3 : 'M[rat]_3 := \matrix_(i, j) ((i.+1 == j) || (j.+1 == i))%:R.

Definition path_graph : graph :=
  Graph 3 (fun k => nth [::] [:: [:: 1%N]; [:: 0%N; 2%N]; [:: 1%N]] k)
          (fun k => nth 0%N [:: 1%N; 2%N; 1%N] k).

Definition path_population : Population rat :=
  mkPopulation path_graph 3 [:: 1%:Z; 0%:Z; 1%:Z] "ff" 2 1 (1 / 2) (1 / 10).

(** A positive function standing for [np.exp] over the rationals. *)
Definition positive_weight (x : rat) : rat := 1 + x ^+ 2.


(** ** Further vocabulary and instances *)

(** The complete graph on three nodes, a regular graph. *)
Definition triangle : 'M[rat]_3 := \matrix_(i, j) (i != j)%:R.

Section SimulationEvents.

Variable F : realFieldType.

(** A configuration of the two traits 0 and 1. *)
Definition binary_state (state : seq int) : bool :=
  all (fun x => (x == 0) || (x == 1)) state.

(** The call raised a ValueError. *)
Definition raises_ValueError {T : Type} (r : result T) : bool :=
  if r is Raise (ValueError _) then true else false.

(** The method returned and left the population in the configuration
    [state]. *)
Definition returns_state {T : Type} (state : seq int)
    (r : result (Population F * T)) : bool :=
  if r is Return x then _state x.1 == state else false.

(** A graph whose nodes are [0 .. N - 1], [N > 0], each with a non-empty
    list of distinct neighbours among the nodes. *)
Definition valid_graph (G : graph) : Prop :=
  (0 < number_of_nodes G)%N
  /\ forall k, (k < number_of_nodes G)%N ->
       [/\ neighbors G k != [::], uniq (neighbors G k)
         & all (fun l => (l < number_of_nodes G)%N) (neighbors G k)].

End SimulationEvents.

(** A population of producers on the path, without mutation. *)
Definition producers : Population rat :=
  mkPopulation path_graph 3 (nseq 3 1%:Z) "pp" 2 1 0 (1 / 10).

(** Two nodes without edges. *)
Definition two_isolated : graph := Graph 2 (fun=> [::]) (fun=> 0%N).

Definition isolated_population : Population rat :=
  mkPopulation two_isolated 2 [:: 1%:Z; 0%:Z] "ff" 2 1 (1 / 2) (1 / 10).

(** * Properties *)

(** ** The frequency derivative *)

Section FrequencyDerivativeProofs.

Variable F : realFieldType.
Variable N : nat.
Implicit Types (w A X Y : 'M[F]_N) (b c : F).

Lemma np_sum_diagE X : np_sum_row (np_diag X) = \tr X.
Proof. by rewrite /np_sum_row /mxtrace; apply: eq_bigr => i _; rewrite mxE. Qed.

Lemma np_sum_multiplyE X Y :
  np_sum (np_multiply X Y) = \sum_i \sum_j X i j * Y i j.
Proof.
by rewrite /np_sum; apply: eq_bigr => i _; apply: eq_bigr => j _; rewrite mxE.
Qed.

(** C1 (as amended): [frequency_derivative] compares the lower-cased label:
    it returns half of [trace(A (K1 - K2)) b - trace(A^T (K1 + K2)) c] when
    the lower-cased label is ['ff'], half of
    [(K1p - K2p) b - (K1p + K2p) c] with [K1p = sum(K1 * w)] and
    [K2p = sum(K2 * w)] when it is ['pp'], raises [ValueError] for every
    other string and [TypeError] for a value that is not a string. *)
Theorem frequency_derivative_spec (K1 K2 : 'M[F]_N) w A b c
    (social_good : pyval F) :
  frequency_derivative K1 K2 w A b c social_good =
  match social_good with
  | PyStr s =>
      if lower s == "ff"%string then Return (additive_effect K1 K2 A b c)
      else if lower s == "pp"%string
      then Return (proportional_effect K1 K2 w b c)
      else Raise (ValueError msg_good_value)
  | _ => Raise (TypeError msg_good_type)
  end.
Proof.
case: social_good => //= s; rewrite !inE.
case: (lower s == "ff"%string) => /=; first by rewrite !np_sum_diagE div1r.
by case: (lower s == "pp"%string) => //=; rewrite !np_sum_multiplyE div1r.
Qed.

End FrequencyDerivativeProofs.

(** C1 as stated fails: the label ['FF'] is neither ['ff'] nor ['pp'], and
    the call returns the additive effect (here 1) instead of raising. *)
Lemma frequency_derivative_accepts_FF :
  [/\ PyStr "FF" <> PyStr "ff" :> pyval rat,
      PyStr "FF" <> PyStr "pp" :> pyval rat
    & frequency_derivative (1%:M : 'M[rat]_1) 0 1%:M 1%:M 3 1 (PyStr "FF")
      = Return 1].
Proof.
split=> //; rewrite /frequency_derivative /= !np_sum_diagE.
by rewrite subr0 addr0 trmx1 !mulmx1 mxtrace1 mul1r; congr Return; field.
Qed.

(** ** Payoffs *)

Section PayoffProofs.

Variable F : realFieldType.
Implicit Types (pop : Population F) (subset : seq nat).

Lemma foldl_addE (z : F) (l : seq F) : foldl +%R z l = z + \sum_(x <- l) x.
Proof.
elim: l z => [|x l IH] z /=; first by rewrite big_nil addr0.
by rewrite IH big_cons addrA.
Qed.

Lemma py_sumE (l : seq F) : py_sum l = \sum_(x <- l) x.
Proof. by rewrite /py_sum foldl_addE add0r. Qed.

(** Writing [f x] into slot [index x s] for every [x] of a part [l] of [s]. *)
Lemma foldl_set_index (f : nat -> F) (s l : seq nat) (acc : seq F) :
  uniq s -> {subset l <= s} -> size acc = size s ->
  let r := foldl (fun a x => set_nth 0 a (index x s) (f x)) acc l in
  size r = size s
  /\ forall k, (k < size s)%N ->
       nth 0 r k = if nth 0%N s k \in l then f (nth 0%N s k) else nth 0 acc k.
Proof.
move=> us; elim: l acc => [|x l IH] acc sub sz /=; first by split.
have xs : x \in s by apply: sub; rewrite mem_head.
have sub' : {subset l <= s} by move=> y yl; apply: sub; rewrite inE yl orbT.
have sz' : size (set_nth 0 acc (index x s) (f x)) = size s.
  by rewrite size_set_nth sz; apply/maxn_idPr; rewrite index_mem.
have [-> IHn] := IH _ sub' sz'; split=> // k ks.
rewrite (IHn _ ks) inE nth_set_nth /=.
case: (nth 0%N s k \in l); first by rewrite orbT.
rewrite orbF; case: (k =P index x s) => [->|ne]; first by rewrite nth_index ?eqxx.
by case: eqP => // e; case: ne; rewrite -e index_uniq.
Qed.

Lemma payoff_map pop subset :
  uniq subset -> payoff pop subset = [seq individual_payoff pop i | i <- subset].
Proof.
move=> us; rewrite /payoff.
have [] := @foldl_set_index (individual_payoff pop) subset subset
  (nseq (size subset) 0) us (fun _ h => h) (size_nseq _ _).
move=> sz nths; apply: (@eq_from_nth _ 0); first by rewrite sz size_map.
move=> k; rewrite sz => ks.
by rewrite nths // mem_nth // (nth_map 0%N).
Qed.

Lemma individual_payoffE pop i : individual_payoff pop i = spec_payoff pop i.
Proof.
rewrite /individual_payoff /spec_payoff /additive_payoff /proportional_payoff.
case: ifP => _; rewrite py_sumE big_map; congr (_ + _).
- by rewrite mulrC.
- by apply: eq_bigr => k _; rewrite mulrA.
- by rewrite mulrC.
Qed.

(** C6: for a subset of nodes (a list without repetition), [payoff] returns
    for each node [i] of the subset, in order,
    [- c state[i] + sum_{k in N(i)} state[k] b / degree(k)] when the good is
    ['ff'] and [- c degree(i) state[i] + sum_{k in N(i)} state[k] b] when it
    is ['pp']. *)
Theorem payoff_spec pop subset :
  uniq subset ->
  (_social_good pop = "ff"%string ->
     payoff pop subset = [seq additive_payoff pop i | i <- subset])
  /\ (_social_good pop = "pp"%string ->
        payoff pop subset = [seq proportional_payoff pop i | i <- subset]).
Proof.
move=> us; rewrite payoff_map //.
by split=> good; apply: eq_map => i; rewrite individual_payoffE /spec_payoff good.
Qed.

End PayoffProofs.

Lemma payoff_spec_witness :
  payoff path_population [:: 0%N; 2%N]
  = [seq additive_payoff path_population i | i <- [:: 0%N; 2%N]].
Proof.
by have [ff _] := @payoff_spec rat path_population [:: 0%N; 2%N] isT; apply: ff.
Defined.

(** ** Construction of a population *)

Section PopulationInitProofs.

Variable F : realFieldType.
Implicit Types (G : graph) (state : seq int) (b c : F).
Implicit Types (good rate intensity : pyval F).

Lemma not_ltr_or (x : F) : ~~ ((x < 0) || (x > 1)) = (0 <= x <= 1).
Proof. by rewrite negb_or -!leNgt. Qed.


Lemma Population_init_invalid_good G state good b c rate intensity :
  valid_state G state -> ~~ valid_good good ->
  Population_init G state good b c rate intensity = Raise (good_error good).
Proof.
rewrite /Population_init /valid_state /good_error => -> /=.
by case: good => //= s ->.
Qed.


End PopulationInitProofs.



(** ** Linear systems *)

Section Contraction.

Variable F : realFieldType.

(** A matrix with non-negative entries whose rows sum to at most [q < 1]
    is a contraction for the maximum norm, so [1 - Q] is invertible. *)
Lemma contraction_kernel n (Q : 'M[F]_n) (q : F) (u : 'cV[F]_n) :
  q < 1 -> (forall i j, 0 <= Q i j) -> (forall i, \sum_j Q i j <= q) ->
  Q *m u = u -> u = 0.
Proof.
move=> q1 Q0 Qq Qu; apply/colP => i; rewrite [RHS]mxE.
pose a (j : 'I_n) := `|u j 0|.
case: (@Order.TotalTheory.arg_maxP _ _ _ i xpredT a isT) => k _ kmax.
have ak : a k <= q * a k.
  rewrite {1}/a -Qu mxE.
  apply: (le_trans (ler_norm_sum _ _ _)).
  apply: (@le_trans _ _ (\sum_j Q k j * a k)).
    apply: ler_sum => j _; rewrite normrM (ger0_norm (Q0 _ _)).
    by apply: ler_wpM2l; rewrite ?Q0 //; apply: kmax.
  by rewrite -mulr_suml; apply: ler_wpM2r; rewrite ?normr_ge0 // Qq.
have a0 : a k <= 0.
  have : (1 - q) * a k <= 0 by rewrite mulrBl mul1r subr_le0.
  by rewrite pmulr_rle0 // subr_gt0.
apply/eqP; rewrite -normr_le0; apply: le_trans a0.
exact: kmax.
Qed.

Lemma contraction_unit n (Q : 'M[F]_n) (q : F) :
  q < 1 -> (forall i j, 0 <= Q i j) -> (forall i, \sum_j Q i j <= q) ->
  1%:M - Q \in unitmx.
Proof.
move=> q1 Q0 Qq; rewrite -unitmx_tr -row_free_unit -kermx_eq0.
apply/rowV0P => u /sub_kermxP uQ.
have /(contraction_kernel q1 Q0 Qq) : Q *m u^T = u^T.
  apply/esym/eqP; rewrite -subr_eq0 -{1}[u^T]mul1mx -mulmxBl.
  by rewrite -[1%:M - Q]trmxK -trmx_mul uQ trmx0.
by move/(congr1 trmx); rewrite trmxK trmx0.
Qed.

Lemma residual_eq0 m (M : 'M[F]_m) (b x : 'cV[F]_m) :
  residual M b x <= 0 -> M *m x = b.
Proof.
move=> r0; apply/eqP; rewrite -subr_eq0; apply/eqP/colP => i; rewrite [RHS]mxE.
have /eqP : residual M b x = 0.
  by apply/eqP; rewrite eq_le r0 /=; apply: sumr_ge0 => j _; rewrite sqr_ge0.
rewrite psumr_eq0; first by move=> j _; rewrite sqr_ge0.
by move/allP/(_ i (mem_index_enum _)) => /=; rewrite sqrf_eq0 => /eqP.
Qed.

Lemma minimiser_solves (solve : linear_solver F) m (M : 'M[F]_m) b :
  minimises_residual solve -> M \in unitmx -> M *m solve m M b = b.
Proof.
move=> mr uM; apply: residual_eq0.
apply: le_trans (mr _ M b uM (invmx M *m b)) _.
rewrite /residual mulKVmx // big1 // => i _.
by rewrite subrr mxE expr0n.
Qed.

Lemma unit_solution_unique m (M : 'M[F]_m) (x y : 'cV[F]_m) :
  M \in unitmx -> M *m x = M *m y -> x = y.
Proof. by move=> uM /(congr1 (mulmx (invmx M))); rewrite !mulKmx. Qed.

End Contraction.

(** ** Random walks and reproductive values *)

Lemma mul_diag_inv (F : realFieldType) N (e : 'M[F]_N) (d : 'rV[F]_N) :
  e^T *m diag_mx (\row_k (d 0 k)^-1) = \matrix_(i, k) (e^T i k * (1 / d 0 k)).
Proof. by apply/matrixP => i k; rewrite mul_mx_diag !mxE div1r. Qed.

Section LocationWeightsProofs.

Variable F : realFieldType.
Variable spsolve : linear_solver F.
Variable N : nat.
Variable w : 'M[F]_N.
Variable mu : F.

Hypothesis w_ge0 : forall i j, 0 <= w i j.
Hypothesis degree_gt0 : forall i, 0 < \sum_j w i j.
Hypothesis mu_gt0 : 0 < mu.
Hypothesis mu_le1 : mu <= 1.
Hypothesis spsolveP : solves_nonsingular spsolve.

Local Notation A := (transition_matrix w).
Local Notation e := (marginal_transmission w).
Local Notation d := (death_probabilities w).
Local Notation tv := (tilde_v spsolve w mu).

Lemma size_neq0 (k : 'I_N) : N%:R != 0 :> F.
Proof. by rewrite pnatr_eq0 -lt0n; apply: leq_ltn_trans (ltn_ord k). Qed.

Lemma transition_matrixE i j : A i j = w i j / \sum_k w i k.
Proof. by rewrite /transition_matrix /= mxE div1r. Qed.

Lemma transition_ge0 i j : 0 <= A i j.
Proof.
rewrite transition_matrixE mulr_ge0 // invr_ge0; exact: ltW.
Qed.

Lemma transition_row_sum i : \sum_j A i j = 1.
Proof.
under eq_bigr do rewrite transition_matrixE.
by rewrite -mulr_suml divff // gt_eqF.
Qed.

Lemma transmissionE i k : e i k = A k i / N%:R.
Proof. by rewrite /marginal_transmission /transition_matrix /= !mxE. Qed.

Lemma death_probabilityE k : d 0 k = N%:R^-1.
Proof.
rewrite /death_probabilities /= mxE -/(marginal_transmission w).
under eq_bigr do rewrite transmissionE.
by rewrite -mulr_suml transition_row_sum mul1r.
Qed.

Lemma death_probability_neq0 k : d 0 k != 0.
Proof. by rewrite death_probabilityE invr_eq0 (size_neq0 k). Qed.

(** The matrix [(e^T) * diag(1/d)] of the code is the transition matrix. *)
Lemma scaled_transmissionE :
  \matrix_(i, k) (e^T i k * (1 / d 0 k)) = A.
Proof.
apply/matrixP => i k; rewrite mxE [e^T i k]mxE.
rewrite transmissionE death_probabilityE div1r invrK.
by rewrite divfK // (size_neq0 k).
Qed.

Lemma taxed_walk_unit : (1%:M - (1 - mu) *: A)^T \in unitmx.
Proof.
rewrite unitmx_tr; apply: (@contraction_unit _ _ _ (1 - mu)).
- by rewrite gtrBl.
- by move=> i j; rewrite mxE mulr_ge0 ?subr_ge0 // transition_ge0.
- move=> i; under eq_bigr do rewrite mxE.
  by rewrite -mulr_sumr transition_row_sum mulr1.
Qed.

Lemma location_weightsE k :
  location_weights spsolve e d mu 0 k = tv k 0 / d 0 k.
Proof. by rewrite /location_weights mxE scaled_transmissionE. Qed.

Lemma tilde_v_solves :
  (1%:M - (1 - mu) *: A)^T *m tv = \col__ (mu / N%:R).
Proof.
by rewrite /tilde_v spsolveP ?taxed_walk_unit //; apply/colP => i; rewrite !mxE mulr1.
Qed.

Lemma diag_scaledE :
  e^T *m diag_mx (\row_k (d 0 k)^-1) = A.
Proof. by rewrite mul_diag_inv scaled_transmissionE. Qed.

(** C4 (as amended): with [S = I - (1 - mu) e^T diag(1/d)],
    [location_weights] solves the transposed system [S^T x = (mu / N) 1],
    which has exactly one solution, and returns [v[k] = x[k] / d[k]]. *)
Theorem location_weights_system :
  let S := 1%:M - (1 - mu) *: (e^T *m diag_mx (\row_k (d 0 k)^-1)) in
  exists x : 'cV[F]_N,
    [/\ S^T *m x = \col__ (mu / N%:R),
        forall y, S^T *m y = \col__ (mu / N%:R) -> y = x
      & forall k, location_weights spsolve e d mu 0 k = x k 0 / d 0 k].
Proof.
rewrite /= diag_scaledE; exists tv; split.
- exact: tilde_v_solves.
- move=> y yS; apply: (unit_solution_unique taxed_walk_unit).
  by rewrite yS tilde_v_solves.
- exact: location_weightsE.
Qed.

(** C2: for a mutation rate in (0, 1] and the matrices derived from a
    graph whose nodes all have positive degree, the returned vector [v]
    satisfies [N (v * d) (I - (1 - mu) A) = mu 1], entry by entry. *)
Theorem location_weights_invariant :
  N%:R *: (\row_k (location_weights spsolve e d mu 0 k * d 0 k))
    *m (1%:M - (1 - mu) *: A)
  = const_mx mu.
Proof.
have -> : \row_k (location_weights spsolve e d mu 0 k * d 0 k) = tv^T.
  apply/rowP => k; rewrite mxE location_weightsE [RHS]mxE.
  by rewrite divfK // death_probability_neq0.
rewrite -scalemxAl -[tv^T *m _]trmxK trmx_mul trmxK tilde_v_solves.
apply/rowP => k; rewrite !mxE mulrC divfK //; exact: (size_neq0 k).
Qed.

End LocationWeightsProofs.


Lemma inverse_solverP (F : realFieldType) : solves_nonsingular (inverse_solver F).
Proof. by move=> m M b uM; rewrite /inverse_solver mulKVmx. Qed.

Lemma inverse_solver_min (F : realFieldType) :
  minimises_residual (inverse_solver F).
Proof.
move=> m M b uM y; rewrite /residual /inverse_solver mulKVmx //.
rewrite big1; first by move=> i _; rewrite subrr mxE expr0n.
by apply: sumr_ge0 => i _; rewrite sqr_ge0.
Qed.

Lemma path3_ge0 i j : 0 <= path3 i j.
Proof. by rewrite mxE ler0n. Qed.

Lemma path3_degree i : 0 < \sum_j path3 i j.
Proof.
rewrite !big_ord_recl big_ord0 !mxE /=.
by case: i => [[|[|[|i]]] ilt] //=.
Qed.

Section Entries.
Variable F : realFieldType.
Variable N : nat.

Lemma taxed_entry (B : 'M[F]_N) (q : F) (x : 'cV[F]_N) i :
  ((1%:M - q *: B) *m x) i 0 = x i 0 - q * \sum_j B i j * x j 0.
Proof.
rewrite mulmxBl mul1mx -scalemxAl !mxE; congr (_ - _ * _).
Qed.

Lemma taxed_entry_tr (B : 'M[F]_N) (q : F) (x : 'cV[F]_N) i :
  ((1%:M - q *: B)^T *m x) i 0 = x i 0 - q * \sum_j B j i * x j 0.
Proof.
rewrite linearB /= trmx1 linearZ /= taxed_entry; congr (_ - _ * _).
by apply: eq_bigr => j _; rewrite mxE.
Qed.

End Entries.

Lemma path3E (i j : 'I_3) : path3 i j = ((i.+1 == j) || (j.+1 == i))%:R.
Proof. by rewrite mxE. Qed.

Lemma half_bounds : (0 < 1 / 2 :> rat) /\ (1 / 2 <= 1 :> rat).
Proof. by []. Qed.

Lemma location_weights_invariant_witness :
  3%:R *: (\row_k (location_weights (inverse_solver rat)
                     (marginal_transmission path3) (death_probabilities path3)
                     (1 / 2) 0 k
                   * death_probabilities path3 0 k))
    *m (1%:M - (1 - 1 / 2) *: transition_matrix path3)
  = const_mx (1 / 2).
Proof.
exact: (location_weights_invariant path3_ge0 path3_degree
          (proj1 half_bounds) (proj2 half_bounds) (@inverse_solverP rat)).
Defined.

Lemma location_weights_system_witness :
  let e := marginal_transmission path3 in
  let d := death_probabilities path3 in
  let S := 1%:M - (1 - 1 / 2) *: (e^T *m diag_mx (\row_k (d 0 k)^-1)) in
  exists x : 'cV[rat]_3,
    [/\ S^T *m x = \col__ ((1 / 2) / 3%:R),
        forall y, S^T *m y = \col__ ((1 / 2) / 3%:R) -> y = x
      & forall k, location_weights (inverse_solver rat) e d (1 / 2) 0 k
                  = x k 0 / d 0 k].
Proof.
exact: (location_weights_system path3_ge0 path3_degree
          (proj1 half_bounds) (proj2 half_bounds) (@inverse_solverP rat)).
Defined.

(** C4 as stated fails: on the path with three nodes and [mu = 1/2], no
    solution [x] of the system [S x = (mu / N) 1] without the transposition
    gives the returned vector as [x[k] / d[k]]. *)
Lemma location_weights_not_untransposed :
  let e := marginal_transmission path3 in
  let d := death_probabilities path3 in
  let S := 1%:M - (1 - 1 / 2) *: (e^T *m diag_mx (\row_k (d 0 k)^-1)) in
  ~ exists x : 'cV[rat]_3,
      S *m x = \col__ ((1 / 2) / 3%:R)
      /\ forall k, location_weights (inverse_solver rat) e d (1 / 2) 0 k
                   = x k 0 / d 0 k.
Proof.
have [mu0 mu1] := half_bounds.
pose x' := tilde_v (inverse_solver rat) path3 (1 / 2).
have Sx' : (1%:M - (1 - 1 / 2) *: transition_matrix path3)^T *m x'
           = \col__ ((1 / 2) / 3%:R).
  exact: (tilde_v_solves path3_ge0 path3_degree mu0 mu1 (@inverse_solverP rat)).
have vx' k := location_weightsE (inverse_solver rat) (1 / 2) path3_degree k.
move=> e d S [x [Sx vx]].
have dn0 := death_probability_neq0 path3_degree.
have xx' : x = x'.
  apply/colP => k; have := vx k; rewrite /e /d vx'.
  by move/(congr1 (fun t => t * d 0 k)); rewrite !divfK.
rewrite -{x' vx' vx}xx' in Sx'.
move: Sx; rewrite /S (diag_scaledE path3_degree) => Sx.
have E i := congr1 (fun X : 'cV[rat]_3 => X i 0) Sx.
have E' i := congr1 (fun X : 'cV[rat]_3 => X i 0) Sx'.
move: (E ord0) (E' ord0) (E (lift ord0 ord0)) (E (lift ord0 (lift ord0 ord0))).
rewrite /= taxed_entry_tr !taxed_entry ![(\col__ _) _ _]mxE.
rewrite !big_ord_recl !big_ord0 !transition_matrixE !big_ord_recl !big_ord0 !path3E /=.
move: (x ord0 0) (x (lift ord0 ord0) 0) (x (lift ord0 (lift ord0 ord0)) 0).
rewrite !(add0r, addr0, mul0r, divr1, mul1r) => x0 x1 x2 e1 e2 e3 e4; lra.
Qed.

(** ** Identity by state *)

Section PairIndex.

Variable F : realFieldType.
Variable N : nat.
Implicit Types (i j : 'I_N) (r c : 'I_(N * N)).

Lemma index_hi_pair i j : index_hi (pair_index i j) = i.
Proof.
have Npos : (0 < N)%N by apply: leq_ltn_trans (ltn_ord j).
by apply: val_inj => /=; rewrite divnMDl // divn_small ?addn0.
Qed.

Lemma index_lo_pair i j : index_lo (pair_index i j) = j.
Proof. by apply: val_inj => /=; rewrite modnMDl modn_small. Qed.

Lemma pair_index_hi_lo r : pair_index (index_hi r) (index_lo r) = r.
Proof. by apply: val_inj => /=; rewrite -divn_eq. Qed.

Lemma pair_index_eq i j i' j' :
  (pair_index i j == pair_index i' j') = (i == i') && (j == j').
Proof.
apply/eqP/andP => [e|[/eqP-> /eqP->]] //.
have := congr1 (@index_hi N) e; have := congr1 (@index_lo N) e.
by rewrite !index_hi_pair !index_lo_pair => -> ->.
Qed.

(** A sum over flat indices is a double sum over pairs. *)
Lemma sum_pair_index (f : 'I_(N * N) -> F) :
  \sum_r f r = \sum_i \sum_j f (pair_index i j).
Proof.
rewrite pair_bigA /=.
rewrite (reindex (fun p : 'I_N * 'I_N => pair_index p.1 p.2)) //=.
exists (fun r => (index_hi r, index_lo r)) => [[i j] _|r _] /=.
  by rewrite index_hi_pair index_lo_pair.
exact: pair_index_hi_lo.
Qed.

Lemma reshape_flatten (phi : 'M[F]_N) : reshape_F (flatten_F phi) = phi.
Proof.
by apply/matrixP => i j; rewrite !mxE index_hi_pair index_lo_pair.
Qed.

Lemma flatten_reshape (x : 'cV[F]_(N * N)) : flatten_F (reshape_F x) = x.
Proof.
by apply/colP => r; rewrite !mxE pair_index_hi_lo.
Qed.

Lemma boundary_rows (s : seq 'I_N) (M : 'M[F]_(N * N)) (b : 'cV[F]_(N * N)) :
  let Mb := foldl (@boundary_row F N) (M, b) s in
  (forall r c, Mb.1 r c = if diagonal_pair r && (index_hi r \in s)
                          then (r == c)%:R else M r c)
  /\ (forall r, Mb.2 r 0 = if diagonal_pair r && (index_hi r \in s)
                           then 1 else b r 0).
Proof.
elim: s M b => [|i s IH] M b /=; first by split=> r *; rewrite in_nil andbF.
set M2 := \matrix_(r, c) _; set b2 := \col_r _.
have [/= h1 h2] := IH M2 b2.
have rowE r : (r == pair_index i i) = diagonal_pair r && (index_hi r == i).
  rewrite -{1}(pair_index_hi_lo r) pair_index_eq /diagonal_pair.
  by case: (index_hi r =P i) => [->|_]; rewrite ?andbT ?andbF // eq_sym.
have rowP r : diagonal_pair r -> index_hi r = i -> pair_index i i = r.
  by move=> /eqP dr ri; rewrite -[RHS](pair_index_hi_lo r) -dr ri.
split=> [r c|r]; rewrite ?h1 ?h2 inE !mxE !rowE.
  case dr: (diagonal_pair r) => //=.
  case: (index_hi r \in s); first by rewrite orbT.
  rewrite orbF; case: (index_hi r =P i) => [ri|//] /=.
  rewrite -rowE (rowP _ dr ri) [c == r]eq_sym; case: (r == c) => //=.
  by case: (M r c =P 0) => [->|].
case dr: (diagonal_pair r) => //=.
case: (index_hi r \in s); first by rewrite orbT.
by rewrite orbF.
Qed.

End PairIndex.

Section IdentityByStateSystem.

Variable F : realFieldType.
Variable N : nat.
Implicit Types (i j : 'I_N) (r c : 'I_(N * N)) (A phi : 'M[F]_N).

Lemma sum_delta (I : finType) (i : I) (G : I -> F) :
  \sum_a (i == a)%:R * G a = G i.
Proof.
rewrite (bigD1 i) //= eqxx mul1r big1 ?addr0 // => a ai.
by rewrite eq_sym (negbTE ai) mul0r.
Qed.

Lemma sum_delta_r (I : finType) (i : I) (G : I -> F) :
  \sum_a G a * (i == a)%:R = G i.
Proof. by under eq_bigr do rewrite mulrC; exact: sum_delta. Qed.

Lemma kron_1A_sum A (f : 'I_(N * N) -> F) r :
  \sum_c kron 1%:M A r c * f c
  = \sum_b A (index_lo r) b * f (pair_index (index_hi r) b).
Proof.
rewrite sum_pair_index.
under eq_bigr => a _.
  under eq_bigr => b _ do rewrite mxE index_hi_pair index_lo_pair mxE -mulrA.
  rewrite -mulr_sumr; over.
exact: sum_delta.
Qed.

Lemma kron_A1_sum A (f : 'I_(N * N) -> F) r :
  \sum_c kron A 1%:M r c * f c
  = \sum_a A (index_hi r) a * f (pair_index a (index_lo r)).
Proof.
rewrite sum_pair_index; apply: eq_bigr => a _.
under eq_bigr => b _.
  rewrite mxE index_hi_pair index_lo_pair mxE -mulrA [_%:R * _]mulrC mulrA; over.
exact: (sum_delta_r (index_lo r) (fun b => A (index_hi r) a * f (pair_index a b))).
Qed.

(** The system after the loop. *)
Lemma system_matrixE A (mu : F) r c :
  (identity_by_state_system A mu).1 r c
  = if diagonal_pair r then (r == c)%:R
    else (r == c)%:R
         - (1 - mu) * (1 / 2) * (kron 1%:M A r c + kron A 1%:M r c).
Proof.
rewrite /identity_by_state_system.
have [-> _] := boundary_rows (enum 'I_N)
  (1%:M - ((1 - mu) * (1 / 2)) *: (kron 1%:M A + kron A 1%:M))
  (\col__ (mu * (1 / 2) * 1)).
rewrite mem_enum andbT; case: ifP => // _; rewrite 4![in LHS]mxE.
by congr (_ - _ * _); rewrite [LHS]mxE.
Qed.

Lemma system_rhsE A (mu : F) r :
  (identity_by_state_system A mu).2 r 0
  = if diagonal_pair r then 1 else mu / 2.
Proof.
rewrite /identity_by_state_system.
have [_ ->] := boundary_rows (enum 'I_N)
  (1%:M - ((1 - mu) * (1 / 2)) *: (kron 1%:M A + kron A 1%:M))
  (\col__ (mu * (1 / 2) * 1)).
by rewrite mem_enum andbT; case: ifP => // _; rewrite mxE mulr1 div1r.
Qed.

Lemma system_row A (mu : F) (x : 'cV[F]_(N * N)) r :
  ((identity_by_state_system A mu).1 *m x) r 0
  = if diagonal_pair r then x r 0
    else x r 0
         - (1 - mu) * (1 / 2)
           * (\sum_b A (index_lo r) b * x (pair_index (index_hi r) b) 0
              + \sum_a A (index_hi r) a * x (pair_index a (index_lo r)) 0).
Proof.
rewrite mxE; under eq_bigr do rewrite system_matrixE.
case: ifP => _; first exact: sum_delta.
under eq_bigr do rewrite mulrBl -mulrA [(kron _ _ _ _ + _) * _]mulrDl.
rewrite sumrB sum_delta -mulr_sumr big_split /=.
by rewrite (kron_1A_sum A (fun c => x c 0)) (kron_A1_sum A (fun c => x c 0)).
Qed.

Lemma system_solutionP A (mu : F) (x : 'cV[F]_(N * N)) :
  (identity_by_state_system A mu).1 *m x = (identity_by_state_system A mu).2
  <-> ibs_equations A mu (reshape_F x).
Proof.
have rowE i j :
  ((identity_by_state_system A mu).1 *m x) (pair_index j i) 0
    = (identity_by_state_system A mu).2 (pair_index j i) 0
  <-> reshape_F x i j
      = if i == j then 1
        else mu / 2 + (1 - mu) / 2
             * (\sum_s A i s * reshape_F x s j + \sum_a A j a * reshape_F x i a).
  rewrite system_row system_rhsE /diagonal_pair index_hi_pair index_lo_pair.
  rewrite [j == i]eq_sym [reshape_F x i j]mxE.
  under [\sum_s _ * reshape_F x _ _]eq_bigr do rewrite mxE.
  under [\sum_a _ * reshape_F x _ _]eq_bigr do rewrite mxE.
  case: ifP => _ //; rewrite [(1 - mu) * _]mulrA mulr1.
  by split=> [<-|->]; rewrite ?subrK ?addrK.
split=> [e i j|e]; first by apply/rowE; rewrite e.
by apply/colP => r; rewrite -(pair_index_hi_lo r); apply/rowE.
Qed.

End IdentityByStateSystem.

Section IdentityByStateProofs.

Variable F : realFieldType.
Variables spsolve lsqr : linear_solver F.
Variable N : nat.
Variable A : 'M[F]_N.
Variable mu : F.

Hypothesis A_ge0 : forall i j, 0 <= A i j.
Hypothesis A_stochastic : forall i, \sum_j A i j = 1.
Hypothesis mu_gt0 : 0 < mu.
Hypothesis mu_le1 : mu <= 1.

Local Notation M := (identity_by_state_system A mu).1.
Local Notation b := (identity_by_state_system A mu).2.

Lemma kron_ge0 (B C : 'M[F]_N) r c :
  (forall i j, 0 <= B i j) -> (forall i j, 0 <= C i j) -> 0 <= kron B C r c.
Proof. by move=> B0 C0; rewrite mxE mulr_ge0. Qed.

Lemma scalar1_ge0 n (i j : 'I_n) : 0 <= (1%:M : 'M[F]_n) i j.
Proof. by rewrite mxE ler0n. Qed.

Lemma kron_1A_row_sum r : \sum_c kron 1%:M A r c = 1.
Proof.
have := kron_1A_sum A (fun=> 1) r.
under eq_bigr do rewrite mulr1; move=> ->.
by under eq_bigr do rewrite mulr1; exact: A_stochastic.
Qed.

Lemma kron_A1_row_sum r : \sum_c kron A 1%:M r c = 1.
Proof.
have := kron_A1_sum A (fun=> 1) r.
under eq_bigr do rewrite mulr1; move=> ->.
by under eq_bigr do rewrite mulr1; exact: A_stochastic.
Qed.

Lemma system_unit : M \in unitmx.
Proof.
have q0 : 0 <= (1 - mu) * (1 / 2) by rewrite mulr_ge0 ?subr_ge0 // divr_ge0.
pose Q : 'M[F]_(N * N) := 1%:M - M.
have QE r c : Q r c = if diagonal_pair r then 0
    else (1 - mu) * (1 / 2) * (kron 1%:M A r c + kron A 1%:M r c).
  rewrite /Q [LHS]mxE [X in _ + X]mxE [X in X + _]mxE system_matrixE.
  case: ifP => _; first by rewrite subrr.
  by rewrite opprB addrCA subrr addr0.
have -> : M = 1%:M - Q by rewrite /Q opprB addrCA subrr addr0.
apply: (@contraction_unit _ _ _ (1 - mu)) => [|r c|r]; first by rewrite gtrBl.
- rewrite QE; case: ifP => _ //; rewrite mulr_ge0 // addr_ge0 //.
  + by apply: kron_ge0 => // i j; apply: scalar1_ge0.
  + by apply: kron_ge0 => // i j; apply: scalar1_ge0.
- under eq_bigr do rewrite QE; case: (diagonal_pair r).
    by rewrite sumr_const mul0rn subr_ge0.
  rewrite -mulr_sumr big_split /=.
  rewrite kron_1A_row_sum kron_A1_row_sum -mulrA.
  have -> : 1 / 2 * (1 + 1) = 1 :> F by field.
  by rewrite mulr1.
Qed.

Lemma ibs_equations_tr (phi : 'M[F]_N) :
  ibs_equations A mu phi -> ibs_equations A mu phi^T.
Proof.
move=> H i j; rewrite mxE H eq_sym; case: ifP => _ //.
congr (_ + _ * _); rewrite addrC; congr (_ + _).
- by apply: eq_bigr => s _; rewrite mxE.
- by apply: eq_bigr => a _; rewrite mxE.
Qed.

Lemma solution_unique (x y : 'cV[F]_(N * N)) : M *m x = b -> M *m y = b -> x = y.
Proof. by move=> ex ey; apply: (unit_solution_unique system_unit); rewrite ex ey. Qed.

Lemma solution_symmetric (x : 'cV[F]_(N * N)) :
  M *m x = b -> (reshape_F x)^T = reshape_F x.
Proof.
move=> ex; have /system_solutionP/ibs_equations_tr := ex.
rewrite -(reshape_flatten (reshape_F x)^T) => /system_solutionP ey.
by rewrite [in RHS](solution_unique ex ey) reshape_flatten.
Qed.

Lemma solution_entry_sym (x : 'cV[F]_(N * N)) i j :
  M *m x = b -> reshape_F x i j = reshape_F x j i.
Proof.
move=> ex; have := congr1 (fun X : 'M[F]_N => X j i) (solution_symmetric ex).
by rewrite [LHS]mxE.
Qed.

Hypothesis spsolveP : solves_nonsingular spsolve.
Hypothesis lsqrP : minimises_residual lsqr.

Lemma identity_by_state_returns s :
  valid_solver s ->
  exists2 x, M *m x = b
    & identity_by_state_probabilities spsolve lsqr A mu (PyStr s)
      = Return (reshape_F x).
Proof.
rewrite /valid_solver /identity_by_state_probabilities => vs.
rewrite [identity_by_state_system A mu]surjective_pairing vs /=.
case: ifP => _.
  by exists (spsolve M b) => //; apply: spsolveP; apply: system_unit.
by exists (lsqr M b) => //; apply: minimiser_solves => //; apply: system_unit.
Qed.

(** C3: for a mutation rate in (0, 1], a row-stochastic [A] and either
    valid selector, [identity_by_state_probabilities] returns a matrix
    [phi] with [phi[i][i] = 1] for every [i] and
    [phi = mu / 2 + ((1 - mu) / 2) (A phi + (A phi)^T)] at every
    off-diagonal entry, and the two solver modes return the same matrix. *)
Theorem identity_by_state_spec s :
  valid_solver s ->
  exists phi : 'M[F]_N,
    [/\ identity_by_state_probabilities spsolve lsqr A mu (PyStr s) = Return phi,
        identity_by_state_probabilities spsolve lsqr A mu (PyStr "spsolve")
        = Return phi,
        identity_by_state_probabilities spsolve lsqr A mu (PyStr "lsqr")
        = Return phi,
        forall i, phi i i = 1
      & forall i j, i != j ->
          phi i j = mu / 2
                    + (1 - mu) / 2 * ((A *m phi) i j + (A *m phi)^T i j)].
Proof.
move=> vs.
have [x ex ->] := identity_by_state_returns vs.
have [x1 ex1 ->] := @identity_by_state_returns "spsolve" isT.
have [x2 ex2 ->] := @identity_by_state_returns "lsqr" isT.
rewrite -(solution_unique ex ex1) -(solution_unique ex ex2).
exists (reshape_F x); split=> // [i|i j ij].
  by have /system_solutionP/(_ i i) := ex; rewrite eqxx.
have /system_solutionP/(_ i j) := ex; rewrite (negbTE ij) => {1}->.
congr (_ + _ * (_ + _)); rewrite !mxE //.
apply: eq_bigr => a _; congr (_ * _).
exact: solution_entry_sym.
Qed.

(** C10: under the same conditions the returned matrix is symmetric. *)
Theorem identity_by_state_symmetric s :
  valid_solver s ->
  exists phi : 'M[F]_N,
    identity_by_state_probabilities spsolve lsqr A mu (PyStr s) = Return phi
    /\ forall i j, phi i j = phi j i.
Proof.
move=> vs; have [x ex ->] := identity_by_state_returns vs.
exists (reshape_F x); split=> // i j.
exact: solution_entry_sym.
Qed.

End IdentityByStateProofs.


Lemma identity_by_state_spec_witness :
  exists phi : 'M[rat]_3,
    [/\ identity_by_state_probabilities (inverse_solver rat) (inverse_solver rat)
          (transition_matrix path3) (1 / 2) (PyStr "lsqr") = Return phi,
        identity_by_state_probabilities (inverse_solver rat) (inverse_solver rat)
          (transition_matrix path3) (1 / 2) (PyStr "spsolve") = Return phi,
        identity_by_state_probabilities (inverse_solver rat) (inverse_solver rat)
          (transition_matrix path3) (1 / 2) (PyStr "lsqr") = Return phi,
        forall i, phi i i = 1
      & forall i j, i != j ->
          phi i j = (1 / 2) / 2
                    + (1 - 1 / 2) / 2
                      * ((transition_matrix path3 *m phi) i j
                         + (transition_matrix path3 *m phi)^T i j)].
Proof.
exact: (identity_by_state_spec (transition_ge0 path3_ge0 path3_degree)
          (transition_row_sum path3_degree) (proj1 half_bounds)
          (proj2 half_bounds) (@inverse_solverP rat) (@inverse_solver_min rat)
          (s := "lsqr") isT).
Defined.

Lemma identity_by_state_symmetric_witness :
  exists phi : 'M[rat]_3,
    identity_by_state_probabilities (inverse_solver rat) (inverse_solver rat)
      (transition_matrix path3) (1 / 2) (PyStr "spsolve") = Return phi
    /\ forall i j, phi i j = phi j i.
Proof.
exact: (identity_by_state_symmetric (transition_ge0 path3_ge0 path3_degree)
          (transition_row_sum path3_degree) (proj1 half_bounds)
          (proj2 half_bounds) (@inverse_solverP rat) (@inverse_solver_min rat)
          (s := "spsolve") isT).
Defined.

(** ** Finite distributions *)

Section DistLemmas.

Variable F : realFieldType.
Implicit Types (T U : Type).

Lemma Pr_nil T (P : T -> bool) : Pr (F := F) [::] P = 0.
Proof. by rewrite /Pr big_nil. Qed.

Lemma Pr_cons T (px : F * T) d (P : T -> bool) :
  Pr (px :: d) P = (if P px.2 then px.1 else 0) + Pr d P.
Proof. by rewrite /Pr big_cons; case: ifP => _; rewrite ?add0r. Qed.

Lemma Pr_cat T (d1 d2 : dist F T) P : Pr (d1 ++ d2) P = Pr d1 P + Pr d2 P.
Proof. by rewrite /Pr big_cat. Qed.

Lemma Pr_dret T (x : T) P : Pr (F := F) (dret x) P = (P x)%:R.
Proof. by rewrite /dret Pr_cons Pr_nil addr0 /=; case: (P x). Qed.

Lemma Pr_scale T (q : F) (d : dist F T) P :
  Pr [seq (q * px.1, px.2) | px <- d] P = q * Pr d P.
Proof.
elim: d => [|px d IH]; first by rewrite /= !Pr_nil mulr0.
by rewrite /= !Pr_cons IH /= mulrDr; case: ifP => _; rewrite ?mulr0.
Qed.

Lemma Pr_map T U (f : T -> U) (d : dist F T) P :
  Pr [seq (px.1, f px.2) | px <- d] P = Pr d (fun x => P (f x)).
Proof.
elim: d => [|px d IH]; first by rewrite /= !Pr_nil.
by rewrite /= !Pr_cons IH.
Qed.

Lemma Pr_dbind T U (d : dist F T) (k : T -> dist F U) P :
  Pr (dbind d k) P = \sum_(px <- d) px.1 * Pr (k px.2) P.
Proof.
rewrite /dbind; elim: d => [|px d IH]; first by rewrite /= Pr_nil big_nil.
by rewrite /= Pr_cat IH big_cons Pr_scale.
Qed.

Lemma Pr_drbind T U (d : dist F (result T)) (k : T -> dist F (result U)) P :
  Pr (drbind d k) P
  = \sum_(px <- d) px.1 * (match px.2 with
                           | Return x => Pr (k x) P
                           | Raise e => (P (Raise e))%:R
                           end).
Proof.
rewrite /drbind Pr_dbind; apply: eq_bigr => -[p [x|e]] _ //=.
by rewrite Pr_dret.
Qed.

Lemma listed_dret T (x y : T) : listed (F := F) (dret x) y -> y = x.
Proof. by case=> p [[_ ->]|[]]. Qed.

Lemma listed_dbind T U (d : dist F T) (k : T -> dist F U) y :
  listed (dbind d k) y -> exists2 x, listed d x & listed (k x) y.
Proof.
rewrite /dbind; case=> p; elim: d => [|[q x] d IH] //= inapp.
case: (List.in_app_or _ _ _ inapp) => [inl|/IH [x' [q' inx] ly]]; last first.
  by exists x' => //; exists q'; right.
have [[q' y'] [e iny]] := proj1 (List.in_map_iff _ _ _) inl.
by case: e iny => _ <- iny; exists x; [exists q; left | exists q'].
Qed.

Lemma listed_drbind T U (d : dist F (result T)) (k : T -> dist F (result U)) r :
  listed (drbind d k) r ->
  (exists2 x, listed d (Return x) & listed (k x) r)
  \/ (exists2 e, listed d (Raise e) & r = Raise e).
Proof.
move=> l; have [[x|e] ld lr] := listed_dbind l; first by left; exists x.
by right; exists e => //; apply: listed_dret lr.
Qed.

Lemma listed_map (X U : Type) (f : X -> F * U) (d : seq X) y :
  listed [seq f px | px <- d] y -> exists2 px, List.In px d & (f px).2 = y.
Proof.
case=> p inm; have [px [e inx]] := proj1 (List.in_map_iff _ _ _) inm.
by exists px => //; rewrite e.
Qed.

(** Mass is preserved by sequencing with computations of mass one. *)
Lemma mass_dbind T U (d : dist F T) (k : T -> dist F U) :
  (forall x, listed d x -> mass (k x) = 1) -> mass (dbind d k) = mass d.
Proof.
move=> k1; rewrite /mass Pr_dbind /Pr /=.
elim: d k1 => [|[p x] d IH] k1; first by rewrite !big_nil.
rewrite !big_cons /= IH; first by move=> y [q iny]; apply: k1; exists q; right.
have /(_ x) := k1; rewrite /mass /Pr /= => ->; rewrite ?mulr1 //.
by exists p; left.
Qed.

Lemma mass_drbind T U (d : dist F (result T)) (k : T -> dist F (result U)) :
  (forall x, listed d (Return x) -> mass (k x) = 1) -> mass (drbind d k) = mass d.
Proof.
move=> k1; apply: mass_dbind => -[x|e] l; first exact: k1.
by rewrite /mass Pr_dret.
Qed.

Lemma mass_dret T (x : T) : mass (F := F) (dret x) = 1.
Proof. by rewrite /mass Pr_dret. Qed.

End DistLemmas.

(** ** Sequencing *)

Section SequencingLaws.

Variable F : realFieldType.
Implicit Types (T U V : Type).











End SequencingLaws.

Section DrawLemmas.

Variable F : realFieldType.
Implicit Types (T : Type).

Lemma Pr_randint T (n : nat) (k : nat -> dist F (result T)) P :
  n != 0%N ->
  Pr (drbind (np_random_randint F n) k) P
  = \sum_(death <- iota 0 n) n%:R^-1 * Pr (k death) P.
Proof.
move=> n0; rewrite /np_random_randint (negbTE n0) Pr_drbind /uniform.
by rewrite -map_comp big_map size_iota /= div1r.
Qed.

Lemma Pr_choice T (a : seq nat) (h : nat -> F) (k : nat -> dist F (result T)) P :
  a != [::] -> (forall l, 0 <= h l) -> \sum_(l <- a) h l = 1 ->
  Pr (drbind (np_random_choice a [seq h l | l <- a]) k) P
  = \sum_(l <- a) h l * Pr (k l) P.
Proof.
move=> a0 h0 h1; rewrite /np_random_choice (negbTE a0) size_map eqxx /=.
rewrite big_map h1 eqxx orbF.
have -> : all (fun x => 0 <= x) [seq h l | l <- a].
  by rewrite all_map; apply/allP => l _ /=.
rewrite /= -{1}[a]map_id zip_map -map_comp Pr_drbind big_map.
by apply: eq_bigr.
Qed.

Lemma Pr_rand_lt T (t : F) (k : bool -> dist F T) P :
  0 <= t <= 1 ->
  Pr (dbind (np_random_rand_lt t) k) P
  = t * Pr (k true) P + (1 - t) * Pr (k false) P.
Proof.
case/andP=> t0 t1; rewrite /np_random_rand_lt Pr_dbind.
have -> : Num.min 1 (Num.max 0 t) = t.
  by rewrite (max_idPr t0) (min_idPr t1).
by rewrite !big_cons big_nil addr0.
Qed.

Lemma listed_uniform T (s : seq T) (x : T) :
  listed (uniform F s) x -> List.In x s.
Proof.
case=> p inx; have [y [[_ <-]]] := proj1 (List.in_map_iff _ _ _) inx.
by [].
Qed.

Lemma In_mem (s : seq nat) (x : nat) : List.In x s -> x \in s.
Proof.
elim: s => //= y s IH [->|/IH xs]; first exact: mem_head.
by rewrite inE xs orbT.
Qed.

Lemma listed_randint (n death : nat) :
  listed (np_random_randint F n) (Return death) -> (death < n)%N.
Proof.
rewrite /np_random_randint; case: ifP => _ l; first by have := listed_dret l.
have [[p k] /= ink [ek]] := listed_map l.
have : listed (uniform F (iota 0 n)) k by exists p.
by move=> lk; have := In_mem (listed_uniform lk); rewrite mem_iota ek.
Qed.

Lemma listed_randint_raise (n : nat) e :
  listed (np_random_randint F n) (Raise e) -> n = 0%N.
Proof.
rewrite /np_random_randint; case: eqP => // _ l.
by have [[p k] /= _] := listed_map l.
Qed.

Lemma listed_choice (a : seq nat) (h : nat -> F) r :
  a != [::] -> (forall l, 0 <= h l) -> \sum_(l <- a) h l = 1 ->
  listed (np_random_choice a [seq h l | l <- a]) r ->
  exists2 l, l \in a & r = Return l.
Proof.
move=> a0 h0 h1; rewrite /np_random_choice (negbTE a0) size_map eqxx /=.
rewrite big_map h1 eqxx orbF.
have -> : all (fun x => 0 <= x) [seq h l | l <- a].
  by rewrite all_map; apply/allP => l _ /=.
rewrite /= -{1}[a]map_id zip_map -map_comp => l.
have [x /In_mem xa /= <-] := listed_map l.
by exists x.
Qed.

End DrawLemmas.

(** ** The largest payoff in a neighbourhood *)

Section MaxPayoff.

Variable F : realFieldType.
Implicit Types (pop : Population F) (death : nat).

Lemma bigmax_ge (f : nat -> F) (x0 : F) (s : seq nat) (l : nat) :
  l \in s -> f l <= \big[Num.max/x0]_(i <- s) f i.
Proof.
elim: s => // a s IH; rewrite inE big_cons le_max => /orP[/eqP->|/IH->].
  by rewrite lexx.
by rewrite orbT.
Qed.

Lemma bigmax_attained (f : nat -> F) (h : nat) (s : seq nat) :
  h \in s -> exists2 l, l \in s & \big[Num.max/f h]_(i <- s) f i = f l.
Proof.
move=> hs.
have [l ls ->] : exists2 l, (l \in s) || (l == h)
    & \big[Num.max/f h]_(i <- s) f i = f l.
  elim: {hs} s => [|a s [l ls IH]]; first by exists h; rewrite ?big_nil ?eqxx.
  rewrite big_cons IH; case: (leP (f a) (f l)) => _.
    by exists l => //; case/orP: ls => [ls|->]; rewrite ?orbT // inE ls orbT.
  by exists a => //; rewrite mem_head.
by case/orP: ls => [ls|/eqP->]; [exists l | exists h].
Qed.

(** [max_payoff] is the largest payoff among the neighbours. *)
Lemma max_payoffP pop death :
  neighbors (_structure pop) death != [::] ->
  (forall l, l \in neighbors (_structure pop) death ->
     individual_payoff pop l <= max_payoff pop death)
  /\ (exists2 l, l \in neighbors (_structure pop) death
        & max_payoff pop death = individual_payoff pop l).
Proof.
rewrite /max_payoff; case: (neighbors _ _) => // h s _; split.
  by move=> l; apply: bigmax_ge.
by apply: (bigmax_attained (individual_payoff pop)); rewrite mem_head.
Qed.

End MaxPayoff.

(** ** The death-birth update *)

Section UpdateOnceProofs.

Variable F : realFieldType.
Variable exp : F -> F.
Hypothesis exp_gt0 : forall x, 0 < exp x.

Implicit Types (pop : Population F) (death birth : nat).

Lemma foldl_maxE (x : F) (l : seq F) :
  foldl Num.max x l = \big[Num.max/x]_(y <- l) y.
Proof.
elim: l x => [|y l IH] x /=; first by rewrite big_nil.
rewrite IH big_cons; elim: l {IH} => [|z l IH]; first by rewrite !big_nil maxC.
by rewrite !big_cons IH maxCA.
Qed.

Lemma np_max_neighbors pop death :
  neighbors (_structure pop) death != [::] ->
  np_max [seq individual_payoff pop l | l <- neighbors (_structure pop) death]
  = Return (max_payoff pop death).
Proof.
rewrite /max_payoff; case: (neighbors _ _) => // l s _ /=.
rewrite foldl_maxE big_map big_cons; congr Return.
elim: s => [|a s IH]; first by rewrite !big_nil maxxx.
by rewrite !big_cons maxCA -IH.

Qed.

Lemma birth_weight_sum_gt0 pop death :
  neighbors (_structure pop) death != [::] ->
  0 < \sum_(l <- neighbors (_structure pop) death) birth_weight exp pop death l.
Proof.
case: (neighbors _ _) => // l s _; rewrite big_cons.
by apply: ltr_wpDr; rewrite ?exp_gt0 // sumr_ge0 // => i _; apply/ltW/exp_gt0.
Qed.

Lemma birth_probability_ge0 pop death birth :
  neighbors (_structure pop) death != [::] -> 0 <= birth_probability exp pop death birth.
Proof.
move=> n0; rewrite /birth_probability divr_ge0 //; first exact/ltW/exp_gt0.
exact/ltW/birth_weight_sum_gt0.
Qed.

Lemma birth_probability_sum pop death :
  neighbors (_structure pop) death != [::] ->
  \sum_(l <- neighbors (_structure pop) death) birth_probability exp pop death l = 1.
Proof.
move=> n0; rewrite /birth_probability -mulr_suml divff //.
by rewrite gt_eqF // birth_weight_sum_gt0.
Qed.

Lemma half_rate_range pop :
  0 <= _mutation_rate pop <= 1 -> 0 <= _mutation_rate pop / 2 <= 1.
Proof. by case/andP=> m0 m1; apply/andP; split; lra. Qed.

Lemma choice_probabilities pop death :
  uniq (neighbors (_structure pop) death) ->
  neighbors (_structure pop) death != [::] ->
  let neighbor_payoffs := payoff pop (neighbors (_structure pop) death) in
  let neighbor_fitness :=
    [seq exp (_selection_intensity pop * (p - max_payoff pop death))
    | p <- neighbor_payoffs] in
  [seq f / (\sum_(g <- neighbor_fitness) g) | f <- neighbor_fitness]
  = [seq birth_probability exp pop death l | l <- neighbors (_structure pop) death].
Proof.
move=> un n0 /=; rewrite payoff_map // -!map_comp big_map.
exact: eq_map.
Qed.

(** The law of one update. *)
Lemma update_once_Pr pop (P : result (update_event F) -> bool) :
  valid_population pop ->
  Pr (update_once exp pop) P
  = \sum_(death <- iota 0 (_population_size pop))
      (_population_size pop)%:R^-1
      * \sum_(birth <- neighbors (_structure pop) death)
          birth_probability exp pop death birth
          * (_mutation_rate pop / 2 * (P (drawn pop death birth true))%:R
             + (1 - _mutation_rate pop / 2)
               * (P (drawn pop death birth false))%:R).
Proof.
case=> Npos sz nb rate; rewrite /update_once Pr_randint -?lt0n //.
rewrite big_seq [RHS]big_seq; apply: eq_bigr => death.
rewrite mem_iota /= add0n => dN; have [n0 un _] := nb _ dN.
congr (_ * _).
rewrite [payoff pop _]payoff_map // np_max_neighbors // Pr_drbind.
rewrite /dret big_cons big_nil addr0 mul1r /= -(payoff_map _ un).
have h0 l := birth_probability_ge0 l n0.
have h1 := birth_probability_sum n0.
rewrite (choice_probabilities un n0) Pr_choice //.
apply: eq_bigr => birth _; congr (_ * _).
by rewrite Pr_rand_lt ?half_rate_range // !Pr_dret.
Qed.

(** Every outcome of one update is one of the draws of the law. *)
Lemma listed_update_once pop r :
  valid_population pop -> listed (update_once exp pop) r ->
  exists death birth mutated,
    [/\ (death < _population_size pop)%N,
        birth \in neighbors (_structure pop) death
      & r = drawn pop death birth mutated].
Proof.
case=> Npos sz nb rate; rewrite /update_once => l.
have [[death /listed_randint dN {}l]|[e /listed_randint_raise N0]] :=
  listed_drbind l; last by rewrite N0 in Npos.
have [n0 un _] := nb _ dN; move: l.
rewrite [payoff pop _]payoff_map // np_max_neighbors // => l.
have [[top ltop {}l]|[e le]] := listed_drbind l; last by have := listed_dret le.
have [etop] := listed_dret ltop.
move: l; rewrite etop /= -(payoff_map _ un) (choice_probabilities un n0) => l.
have h0 l' := birth_probability_ge0 l' n0.
have h1 := birth_probability_sum n0.
have [[birth lb {}l]|[e le]] := listed_drbind l; last first.
  by have [? _] := listed_choice n0 h0 h1 le.
have [b' b'in [eb]] := listed_choice n0 h0 h1 lb.
have [m _ lm] := listed_dbind l; have -> := listed_dret lm.
by exists death, birth, m; split=> //; rewrite eb.
Qed.

Lemma mass_update_once pop : valid_population pop -> mass (update_once exp pop) = 1.
Proof.
move=> vp; rewrite /mass update_once_Pr //; case: vp => Npos sz nb rate.
rewrite (eq_big_seq (fun=> (_population_size pop)%:R^-1)) => [death|].
  rewrite mem_iota /= add0n => dN; have [n0 _ _] := nb _ dN.
  under eq_bigr do rewrite /= !mulr1 addrC subrK mulr1.
  by rewrite birth_probability_sum // mulr1.
rewrite big_const_seq count_predT size_iota iter_addr addr0 -mulr_natr.
by rewrite mulVf // pnatr_eq0 -lt0n.
Qed.

End UpdateOnceProofs.

Section UpdatePopulationProofs.

Variable F : realFieldType.
Variable exp : F -> F.
Hypothesis exp_gt0 : forall x, 0 < exp x.

Implicit Types (pop : Population F) (trait : option int).

Lemma valid_replaced pop death birth mutated :
  valid_population pop -> (death < _population_size pop)%N ->
  valid_population (replaced pop death birth mutated).
Proof.
case=> Npos sz nb rate dN; split=> //=.
by rewrite size_set_nth sz; apply/maxn_idPr.
Qed.

Lemma take_set_nth (T : Type) (x0 : T) (s : seq T) (k : nat) (y : T) :
  take k (set_nth x0 s k y) = take k s ++ nseq (k - size s) x0.
Proof.
elim: k s => [|k IH] [|x s] //=; last by rewrite IH subSS.
by rewrite -cat_nseq take_size_cat ?size_nseq.
Qed.

Lemma take_succ_set_nth (T : Type) (x0 : T) (s : seq T) (k : nat) (y : T) :
  (k < size s)%N -> take k.+1 (set_nth x0 s k y) = rcons (take k s) y.
Proof.
move=> ks; rewrite (take_nth x0) ?size_set_nth ?(maxn_idPr _) //.
rewrite nth_set_nth /= eqxx take_set_nth.
by move: (ltnW ks); rewrite -subn_eq0 => /eqP->; rewrite cats0.
Qed.

Lemma listed_update_loop trait m k pop (mf : seq F) r :
  valid_population pop -> size mf = (k + m)%N ->
  listed (update_loop exp trait (iota k m) pop mf) r ->
  exists pops,
    [/\ trajectory pop pops, size pops = m
      & r = Return (last pop pops,
                    take k mf ++ [seq mean_frequency p trait | p <- pops])].
Proof.
elim: m k pop mf => [|m IH] k pop mf vp sz /=.
  move=> l; rewrite (listed_dret l); exists [::]; split=> //=.
  by rewrite cats0 take_oversize // sz addn0.
move=> l; have [[ev lev {}l]|[e le]] := listed_drbind l; last first.
  by have [? [? [? []]]] := listed_update_once exp_gt0 vp le.
have [death [birth [mutated [dN bN [eev]]]]] := listed_update_once exp_gt0 vp lev.
move: l; rewrite eev /= => l.
have vp' := valid_replaced birth mutated vp dN.
have ks : (k < size mf)%N by rewrite sz -addSnnS leq_addr.
have sz' : size (set_nth 0 mf k
    (mean_frequency (replaced pop death birth mutated) trait)) = (k.+1 + m)%N.
  by rewrite size_set_nth (maxn_idPr ks) sz addSnnS.
have [pops [tr szp ->]] := IH _ _ _ vp' sz' l.
exists (replaced pop death birth mutated :: pops); split=> //=.
- by split=> //; exists death, birth, mutated.
- by rewrite szp.
- by rewrite take_succ_set_nth // cat_rcons.
Qed.

Lemma mass_update_loop trait (updates : seq nat) pop (mf : seq F) :
  valid_population pop -> mass (update_loop exp trait updates pop mf) = 1.
Proof.
elim: updates pop mf => [|k updates IH] pop mf vp /=; first exact: mass_dret.
rewrite mass_drbind ?mass_update_once // => ev lev.
have [death [birth [mutated [dN bN [->]]]]] := listed_update_once exp_gt0 vp lev.
by apply: IH; apply: valid_replaced.
Qed.






End UpdatePopulationProofs.


Lemma positive_weight_gt0 (x : rat) : 0 < positive_weight x.
Proof. by rewrite /positive_weight ltr_wpDr // sqr_ge0. Qed.

Lemma valid_path_population : valid_population path_population.
Proof. by split=> //; do 3![case=> //]. Qed.


(** ** Parallel runs *)

Section ParallelIdentity.

Variable T : Type.
Implicit Types (tasks : seq (result T)) (order started : seq nat).
Implicit Types (slots : seq (option T)).

Local Notation run := (@run_tasks identity_monad T).

Lemma nth_task tasks k :
  nth None [seq Some t | t <- tasks] k
  = if (k < size tasks)%N then Some (nth (Raise (IndexError "")) tasks k) else None.
Proof.
case: ltnP => ks; first by rewrite (nth_map (Raise (IndexError ""))).
by rewrite nth_default // size_map.
Qed.

(** On an empty batch nothing runs, whatever the order. *)
Lemma run_tasks_nil order slots started :
  run [::] order slots started = (started, Return slots).
Proof. by elim: order slots started => [|k order IH] slots started //=; rewrite nth_nil. Qed.

Lemma Parallel_nil order :
  Parallel (M := identity_monad) order ([::] : seq (result T)) = ([::], Return [::]).
Proof. by rewrite /Parallel run_tasks_nil. Qed.

(** A task that raises aborts the run when its turn comes. *)
Lemma Parallel_first_raises tasks k order e :
  (k < size tasks)%N -> nth (Raise (IndexError "")) tasks k = Raise e ->
  Parallel (M := identity_monad) (k :: order) tasks = ([:: k], Raise e).
Proof. by move=> ks ek; rewrite /Parallel /= nth_task ks ek. Qed.

(** When every task returns, each value lands in the slot of its task. *)
Lemma run_tasks_returns (v : nat -> T) tasks order slots started :
  (forall k, (k < size tasks)%N ->
     nth (Raise (IndexError "")) tasks k = Return (v k)) ->
  all (fun k => (k < size tasks)%N) order -> size slots = size tasks ->
  exists slots',
    [/\ run tasks order slots started = (started ++ order, Return slots'),
        size slots' = size tasks
      & forall k, nth None slots' k
                  = if k \in order then Some (v k) else nth None slots k].
Proof.
move=> tv; elim: order slots started => [|k order IH] slots started /=.
  by move=> _ sz; exists slots; rewrite cats0.
case/andP=> ks ok sz; rewrite nth_task ks tv //=.
have sz' : size (set_nth None slots k (Some (v k))) = size tasks.
  by rewrite size_set_nth sz; apply/maxn_idPr.
have [slots' [-> sz2 nths]] := IH _ (rcons started k) ok sz'.
exists slots'; split=> // [|j]; first by rewrite cat_rcons.
rewrite nths inE nth_set_nth /=; case: (j \in order); first by rewrite orbT.
by rewrite orbF; case: eqP => // ->.
Qed.

Lemma Parallel_returns (v : nat -> T) tasks order :
  (forall k, (k < size tasks)%N ->
     nth (Raise (IndexError "")) tasks k = Return (v k)) ->
  perm_eq order (iota 0 (size tasks)) ->
  Parallel (M := identity_monad) order tasks
  = (order, Return [seq v k | k <- iota 0 (size tasks)]).
Proof.
move=> tv po; rewrite /Parallel /=.
have ok : all (fun k => (k < size tasks)%N) order.
  by apply/allP => k; rewrite (perm_mem po) mem_iota.
have [slots' [-> sz nths]] :=
  run_tasks_returns [::] tv ok (size_nseq (size tasks) None).
congr (_, Return _) => /=.
have -> : slots' = [seq Some (v k) | k <- iota 0 (size tasks)].
  apply: (@eq_from_nth _ None); first by rewrite sz size_map size_iota.
  move=> k; rewrite sz => ks; rewrite nths (perm_mem po) mem_iota /= add0n ks.
  by rewrite (nth_map 0%N) ?size_iota // nth_iota.
by elim: (iota _ _) => //= k s ->.
Qed.

End ParallelIdentity.

(** ** The calculation runner *)

Section RunCalculationsProofs.

Variable F : realFieldType.
Variables spsolve lsqr : linear_solver F.
Variable N : nat.
Implicit Types (structure A : 'M[F]_N) (b c mu : F) (solver : pyval F).
Implicit Types (order : seq nat) (mutation_rates : seq F).

Lemma identity_by_state_invalid A mu solver :
  ~~ valid_solver_arg solver ->
  identity_by_state_probabilities spsolve lsqr A mu solver
  = Raise (solver_error solver).
Proof.
rewrite /identity_by_state_probabilities /valid_solver_arg /valid_solver.
rewrite [identity_by_state_system A mu]surjective_pairing.
by case: solver => //= s ->.
Qed.

Lemma identity_by_state_valid A mu solver :
  valid_solver_arg solver ->
  returns (identity_by_state_probabilities spsolve lsqr A mu solver).
Proof.
rewrite /identity_by_state_probabilities /valid_solver_arg /valid_solver.
rewrite [identity_by_state_system A mu]surjective_pairing.
by case: solver => //= s ->.
Qed.

Lemma structure_coefficients_invalid structure mu solver :
  ~~ valid_solver_arg solver ->
  structure_coefficients spsolve lsqr structure mu solver
  = Raise (solver_error solver).
Proof.
by move=> inv; rewrite /structure_coefficients /= identity_by_state_invalid.
Qed.

Lemma run_single_calculation_invalid structure b c solver mu :
  ~~ valid_solver_arg solver ->
  run_single_calculation spsolve lsqr structure b c solver mu
  = Raise (solver_error solver).
Proof.
by move=> inv; rewrite /run_single_calculation structure_coefficients_invalid.
Qed.

Lemma run_single_calculation_valid structure b c solver mu :
  valid_solver_arg solver ->
  returns (run_single_calculation spsolve lsqr structure b c solver mu).
Proof.
move=> /(identity_by_state_valid (transition_matrix structure) mu).
rewrite /run_single_calculation /structure_coefficients /=.
rewrite -/(transition_matrix structure).
case: (identity_by_state_probabilities _ _ _ _ _) => //= phi _.
by case: (foldl _ _ _) => K1 K2 /=.
Qed.

(** C9, at the input where the code departs from it: on an empty sequence
    of mutation rates, [np.asarray] of the empty list of results is
    one-dimensional and [selection_effects[:, 0]] raises [IndexError], so
    [run_calculations] returns no pair of sequences, whatever the order of
    the tasks, the graph and the solver. *)
Theorem run_calculations_empty order structure b c solver :
  run_calculations spsolve lsqr order structure b c [::] solver
  = ([::], Raise (IndexError "too many indices for array")).
Proof. by rewrite /run_calculations Parallel_nil. Qed.

(** Index alignment of a non-empty batch. *)
Lemma run_calculations_aligned order structure b c mutation_rates solver :
  valid_solver_arg solver -> mutation_rates != [::] ->
  perm_eq order (iota 0 (size mutation_rates)) ->
  run_calculations spsolve lsqr order structure b c mutation_rates solver
  = (order,
     Return ([seq (single_effects spsolve lsqr structure b c solver mu).1 | mu <- mutation_rates],
             [seq (single_effects spsolve lsqr structure b c solver mu).2 | mu <- mutation_rates])).
Proof.
move=> vs r0 po; rewrite /run_calculations.
set tasks := [seq _ | mu <- mutation_rates].
have szt : size tasks = size mutation_rates by rewrite size_map.
pose v k := single_effects spsolve lsqr structure b c solver (nth 0 mutation_rates k).
have tv k : (k < size tasks)%N ->
    nth (Raise (IndexError "")) tasks k = Return (v k).
  rewrite szt => ks; rewrite (nth_map 0) // /v /single_effects.
  by case: (run_single_calculation _ _ _ _ _ _ _)
       (run_single_calculation_valid structure b c (nth 0 mutation_rates k) vs).
rewrite (Parallel_returns tv) ?szt //.
have -> : [seq v k | k <- iota 0 (size mutation_rates)]
          = [seq single_effects spsolve lsqr structure b c solver mu | mu <- mutation_rates].
  apply: (@eq_from_nth _ (0, 0)); first by rewrite !size_map size_iota.
  move=> k; rewrite size_map size_iota => ks.
  by rewrite (nth_map 0%N) ?size_iota // nth_iota // (nth_map 0).
congr (_, _); case: mutation_rates r0 {po szt v tasks tv} => //= mu l _.
by rewrite -!map_comp.
Qed.

(** An invalid selector is found by the first task that runs. *)
Lemma run_calculations_invalid order structure b c mutation_rates solver :
  ~~ valid_solver_arg solver -> mutation_rates != [::] ->
  perm_eq order (iota 0 (size mutation_rates)) ->
  run_calculations spsolve lsqr order structure b c mutation_rates solver
  = ([:: head 0%N order], Raise (solver_error solver)).
Proof.
move=> inv r0 po; rewrite /run_calculations.
case: order po => [|k order] po.
  by move/perm_size: po r0 => /=; rewrite size_iota; case: mutation_rates.
have ks : (k < size mutation_rates)%N.
  by have := perm_mem po k; rewrite mem_head mem_iota /= add0n => <-.
rewrite (@Parallel_first_raises _ _ k order (solver_error solver)) ?size_map //.
by rewrite (nth_map 0) // run_single_calculation_invalid.
Qed.

End RunCalculationsProofs.

(** ** The simulation runner *)

Section ParallelDist.

Variable F : realFieldType.
Variable T : Type.
Implicit Types (tasks : seq (dist F (result T))) (order started : seq nat).

Implicit Types (slots : seq (option T)).

Local Notation run := (@run_tasks (dist_monad F) T).

Lemma run_tasks_dist_nil order slots started :
  run [::] order slots started = dret (started, Return slots).
Proof.
by elim: order slots started => [|k order IH] slots started //=; rewrite nth_nil.
Qed.

Lemma Parallel_dist_nil order :
  Parallel (M := dist_monad F) order ([::] : seq (dist F (result T)))
  = [:: (1 * 1, ([::], Return [::]))].
Proof. by rewrite /Parallel run_tasks_dist_nil. Qed.

(** A task all of whose outcomes raise [e] aborts the run at its turn. *)
Lemma Parallel_dist_first_raises tasks k order e o :
  (k < size tasks)%N ->
  (forall r, listed (nth [::] tasks k) r -> r = Raise e) ->
  listed (Parallel (M := dist_monad F) (k :: order) tasks) o ->
  o = ([:: k], Raise e).
Proof.
move=> ks te; rewrite /Parallel /= => l.
have [[log r] {}l lo] := listed_dbind l; rewrite (listed_dret lo) /= {lo}.
move: l; rewrite (nth_map [::]) // => l.
have [r' /te -> lr] := listed_dbind l.
by have [-> ->] := listed_dret lr.
Qed.

(** Whatever the order, a slot filled by the run holds an outcome of the
    task of that slot. *)
Lemma listed_run_tasks tasks order slots started log slots' :
  all (fun k => (k < size tasks)%N) order -> size slots = size tasks ->
  listed (run tasks order slots started)
    (log, Return slots') ->
  [/\ log = started ++ order, size slots' = size tasks
    & forall k, if k \in order
                then exists2 v, nth None slots' k = Some v
                                & listed (nth [::] tasks k) (Return v)
                else nth None slots' k = nth None slots k].
Proof.
elim: order slots started => [|k order IH] slots started /=.
  by move=> _ sz l; have [-> ->] := listed_dret l; rewrite cats0.
case/andP=> ks ok sz; rewrite (nth_map [::]) // => l.
have [[v|e] lv {}l] := listed_dbind l; last by have := listed_dret l.
have sz' : size (set_nth None slots k (Some v)) = size tasks.
  by rewrite size_set_nth sz; apply/maxn_idPr.
have [-> sz2 nths] := IH _ _ ok sz' l; split=> // [|j].
  by rewrite cat_rcons.
have := nths j; rewrite inE nth_set_nth /=; case: (j \in order).
  by rewrite orbT.
by rewrite orbF; case: eqP => // -> ->; exists v.
Qed.

Lemma pmap_id_some slots :
  all isSome slots -> slots = [seq Some x | x <- pmap id slots].
Proof. by elim: slots => //= -[x|] //= s IH /IH {1}->. Qed.

Lemma listed_Parallel tasks order log (vals : seq T) :
  perm_eq order (iota 0 (size tasks)) ->
  listed (Parallel (M := dist_monad F) order tasks) (log, Return vals) ->
  [/\ log = order, size vals = size tasks
    & forall k (v0 : T), (k < size tasks)%N ->
        listed (nth [::] tasks k) (Return (nth v0 vals k))].
Proof.
move=> po; rewrite /Parallel /= => l.
have [[log' [slots'|e]] {}l lr] := listed_dbind l; last by have := listed_dret lr.
have [-> /= evals] := listed_dret lr.
have ok : all (fun k => (k < size tasks)%N) order.
  by apply/allP => k; rewrite (perm_mem po) mem_iota.
have [-> sz nths] := listed_run_tasks ok (size_nseq (size tasks) None) l.
have some k : (k < size tasks)%N ->
    exists2 v, nth None slots' k = Some v & listed (nth [::] tasks k) (Return v).
  by move=> ks; have := nths k; rewrite (perm_mem po) mem_iota /= add0n ks.
rewrite {nths}evals.
have es : slots' = [seq Some x | x <- pmap id slots'].
  apply: pmap_id_some; apply/(all_nthP None) => k; rewrite sz.
  by case/some => v ->.
have szv : size (pmap id slots') = size tasks by rewrite -sz [in RHS]es size_map.
split=> // k v0 ks; have [v ev lv] := some k ks.
suff -> : nth v0 (pmap id slots') k = v by [].
by apply: Some_inj; rewrite -ev [in RHS]es (nth_map v0) ?szv.
Qed.

End ParallelDist.

Section RunSimulationsProofs.

Variable F : realFieldType.
Variable exp : F -> F.
Implicit Types (G : graph) (good intensity : pyval F) (b c : F).
Implicit Types (order : seq nat) (mutation_rates : seq F) (trait : option int).

Lemma listed_randint_array (n : nat) (s : seq int) :
  listed (np_random_randint_array F n) s -> size s = n.
Proof.
elim: n s => [|n IH] s /=; first by move=> l; rewrite (listed_dret l).
move=> l; have [x _ {}l] := listed_dbind l.
have [s' /IH <- ls] := listed_dbind l.
by rewrite (listed_dret ls).
Qed.

Lemma run_single_simulation_invalid G good b c intensity n trait mu r :
  ~~ valid_good good ->
  listed (run_single_simulation exp G good b c intensity n trait mu) r ->
  r = Raise (good_error good).
Proof.
move=> inv; rewrite /run_single_simulation => l.
have [state /listed_randint_array sz {}l] := listed_dbind l.
move: l; rewrite Population_init_invalid_good ?/valid_state ?sz // => l.
have [[pop lp _]|[e le ->]] := listed_drbind l; first by have := listed_dret lp.
by have [->] := listed_dret le.
Qed.

(** X13: index alignment of the simulation runner: when [run_simulations]
    returns an array, every task has run, the array is as long as the
    sequence of mutation rates, and its entry [k] is an outcome of the
    simulation for the [k]-th mutation rate, whatever the order in which
    the tasks ran. *)
Lemma run_simulations_aligned order G good b c mutation_rates intensity n trait
    log vals :
  perm_eq order (iota 0 (size mutation_rates)) ->
  listed (run_simulations exp order G good b c mutation_rates intensity n trait)
    (log, Return vals) ->
  [/\ log = order, size vals = size mutation_rates
    & forall k, (k < size mutation_rates)%N ->
        listed (run_single_simulation exp G good b c intensity n trait
                  (nth 0 mutation_rates k))
          (Return (nth 0 vals k))].
Proof.
rewrite /run_simulations => po l.
have [-> sz nths] := listed_Parallel (tasks := [seq _ | mu <- mutation_rates])
  (eq_ind_r (fun m => perm_eq order (iota 0 m)) po (size_map _ _)) l.
split=> // [|k ks]; first by rewrite sz size_map.
by have := nths k 0; rewrite size_map (nth_map 0) //; apply.
Qed.

(** C8 (as amended): neither runner validates its arguments at entry.  An
    invalid solver selector is found by [identity_by_state_probabilities]
    and an invalid good-type label by the constructor of [Population],
    both inside the per-rate task: with a non-empty sequence of mutation
    rates the TypeError or ValueError is raised by the first task that
    runs, after it has started, and with an empty sequence
    [run_simulations] validates nothing and returns the empty array. *)
Theorem invalid_arguments_found_in_tasks (spsolve lsqr : linear_solver F) (N : nat)
    (structure : 'M[F]_N) G good solver b c intensity n trait
    order mutation_rates :
  mutation_rates != [::] -> perm_eq order (iota 0 (size mutation_rates)) ->
  [/\ ~~ valid_solver_arg solver ->
        run_calculations spsolve lsqr order structure b c mutation_rates solver
        = ([:: head 0%N order], Raise (solver_error solver)),
      ~~ valid_good good ->
        forall o,
          listed (run_simulations exp order G good b c mutation_rates intensity
                    n trait) o ->
          o = ([:: head 0%N order], Raise (good_error good))
    & outcomes (run_simulations exp order G good b c [::] intensity n trait)
      = [:: ([::], Return [::])]].
Proof.
move=> r0 po; split; last by rewrite /run_simulations Parallel_dist_nil.
  by move=> inv; apply: run_calculations_invalid.
move=> inv o; rewrite /run_simulations.
case: order po => [|k order] po.
  by move/perm_size: po r0 => /=; rewrite size_iota; case: mutation_rates.
have ks : (k < size mutation_rates)%N.
  by have := perm_mem po k; rewrite mem_head mem_iota /= add0n => <-.
apply: Parallel_dist_first_raises; rewrite ?size_map // => r.
by rewrite (nth_map 0) //; apply: run_single_simulation_invalid.
Qed.

End RunSimulationsProofs.

Lemma invalid_arguments_found_in_tasks_witness :
  run_calculations (inverse_solver rat) (inverse_solver rat) [:: 0%N] path3 2 1
    [:: 1 / 2] (PyStr "bad")
  = ([:: 0%N], Raise (ValueError msg_solver_value)).
Proof.
have [bad _ _] := @invalid_arguments_found_in_tasks rat positive_weight
  (inverse_solver rat) (inverse_solver rat) 3 path3 path_graph (PyStr "good")
  (PyStr "bad") 2 1 (PyFloat (1 / 10)) 2 (Some 1%:Z) [:: 0%N] [:: 1 / 2] isT isT.
exact: bad.
Defined.

(** C8 as stated fails: with the selector ['bad'] and one mutation rate the
    ValueError is raised after task 0 has started, and with no mutation
    rate the selector is not examined at all (the exception is the
    IndexError of the empty batch). *)
Lemma invalid_solver_raised_inside_task :
  run_calculations (inverse_solver rat) (inverse_solver rat) [:: 0%N] path3 2 1
    [:: 1 / 2] (PyStr "bad")
  = ([:: 0%N], Raise (ValueError msg_solver_value))
  /\ run_calculations (inverse_solver rat) (inverse_solver rat) [::] path3 2 1
       [::] (PyStr "bad")
     = ([::], Raise (IndexError "too many indices for array")).
Proof.
split; first exact: (@run_calculations_invalid _ _ _ _ [:: 0%N]).
by rewrite /run_calculations Parallel_nil.
Qed.

(** * Further properties of the exact engine *)

(** ** The random walk *)

Section RandomWalkProperties.

Variable F : realFieldType.
Variable N : nat.
Variable w : 'M[F]_N.

Hypothesis w_ge0 : forall i j, 0 <= w i j.
Hypothesis degree_gt0 : forall i, 0 < \sum_j w i j.

(** X1: on a graph with non-negative weights whose nodes all have positive
    degree, [random_walk_probabilities] returns a transition matrix [A] with
    non-negative entries whose rows sum to 1, the transmission matrix
    [e[i][k] = A[k][i] / N] and the uniform death probabilities
    [d[k] = 1 / N], which sum to 1. *)
Theorem random_walk_probabilities_stochastic :
  let A := transition_matrix w in
  let e := marginal_transmission w in
  let d := death_probabilities w in
  [/\ forall i j, 0 <= A i j,
      forall i, \sum_j A i j = 1,
      forall i k, e i k = A k i / N%:R,
      forall k, d 0 k = N%:R^-1
    & (0 < N)%N -> \sum_k d 0 k = 1].
Proof.
split.
- exact: transition_ge0.
- exact: transition_row_sum.
- exact: transmissionE.
- exact: death_probabilityE.
move=> Npos; under eq_bigr do rewrite death_probabilityE //.
rewrite sumr_const card_ord -mulr_natr mulVf // pnatr_eq0 -lt0n //.
Qed.

End RandomWalkProperties.

Lemma random_walk_probabilities_stochastic_witness :
  \sum_j transition_matrix path3 ord0 j = 1.
Proof.
have [_ rows _ _ _] :=
  random_walk_probabilities_stochastic path3_ge0 path3_degree.
exact: rows.
Defined.

(** ** Marginal fecundity effects *)

Section FecundityProperties.

Variable F : realFieldType.
Variable N : nat.
Variable A : 'M[F]_N.

Hypothesis A_stochastic : forall r, \sum_c A r c = 1.

Lemma marginal_fecundity_effectsE i r c :
  marginal_fecundity_effects A i r c
  = - (A r c * A r i) / N%:R + (c == i)%:R * (A r i / N%:R).
Proof.
rewrite /marginal_fecundity_effects !mxE; case: eqP => _.
  by rewrite mul1r.
by rewrite mul0r addr0.
Qed.

(** X2: for a transition matrix whose rows sum to 1, the entries of every
    row of every matrix [m[i]] of [marginal_fecundity_effects] sum to zero,
    and so do, entry by entry, the matrices [m[i]] over [i]. *)
Theorem marginal_fecundity_effects_sum0 :
  (forall i r, \sum_c marginal_fecundity_effects A i r c = 0)
  /\ (forall r c, \sum_i marginal_fecundity_effects A i r c = 0).
Proof.
split=> [i r|r c].
  under eq_bigr do rewrite marginal_fecundity_effectsE.
  rewrite big_split /=.
  have -> : \sum_c - (A r c * A r i) / N%:R = - (A r i / N%:R).
    under eq_bigr do rewrite mulNr -mulrA.
    by rewrite sumrN -mulr_suml A_stochastic mul1r.
  have -> : \sum_c (c == i)%:R * (A r i / N%:R) = A r i / N%:R.
    under eq_bigr do rewrite eq_sym.
    exact: (sum_delta i (fun=> A r i / N%:R)).
  by rewrite addNr.
under eq_bigr do rewrite marginal_fecundity_effectsE.
rewrite big_split /=.
have -> : \sum_i - (A r c * A r i) / N%:R = - (A r c / N%:R).
  under eq_bigr do rewrite mulNr mulrAC.
  by rewrite sumrN -mulr_sumr A_stochastic mulr1.
have -> : \sum_i (c == i)%:R * (A r i / N%:R) = A r c / N%:R.
  exact: (sum_delta c (fun i => A r i / N%:R)).
by rewrite addNr.
Qed.

End FecundityProperties.

Lemma marginal_fecundity_effects_sum0_witness :
  \sum_c marginal_fecundity_effects (transition_matrix path3) ord0 ord0 c = 0.
Proof.
have [rows _] :=
  marginal_fecundity_effects_sum0 (transition_row_sum path3_degree).
exact: rows.
Defined.

(** ** Reproductive values *)

Section LocationWeightsProperties.

Variable F : realFieldType.
Variable spsolve : linear_solver F.
Variable N : nat.
Variable w : 'M[F]_N.
Variable mu : F.

Hypothesis w_ge0 : forall i j, 0 <= w i j.
Hypothesis degree_gt0 : forall i, 0 < \sum_j w i j.
Hypothesis mu_gt0 : 0 < mu.
Hypothesis mu_le1 : mu <= 1.
Hypothesis spsolveP : solves_nonsingular spsolve.

Local Notation A := (transition_matrix w).
Local Notation e := (marginal_transmission w).
Local Notation d := (death_probabilities w).
Local Notation x := (tilde_v spsolve w mu).
Local Notation v := (location_weights spsolve e d mu).

Let A_ge0 := transition_ge0 w_ge0 degree_gt0.
Let A_rows := transition_row_sum degree_gt0.

(** The fixed-point form of the system solved by [location_weights]. *)
Lemma tilde_v_fixed_point k :
  x k 0 = mu / N%:R + (1 - mu) * \sum_j A j k * x j 0.
Proof.
have := congr1 (fun X : 'cV[F]_N => X k 0)
  (tilde_v_solves w_ge0 degree_gt0 mu_gt0 mu_le1 spsolveP).
rewrite taxed_entry_tr [in X in _ = X -> _]mxE => <-.
by rewrite subrK.
Qed.

Lemma location_weights_scaled k : v 0 k = N%:R * x k 0.
Proof.
rewrite (location_weightsE spsolve mu degree_gt0) (death_probabilityE degree_gt0).
by rewrite invrK mulrC.
Qed.

Lemma tilde_v_sum : (0 < N)%N -> \sum_k x k 0 = 1.
Proof.
move=> Npos; have N0 : N%:R != 0 :> F by rewrite pnatr_eq0 -lt0n.
have : \sum_k x k 0 = mu + (1 - mu) * \sum_k x k 0.
  rewrite {1}(eq_bigr _ (fun k _ => tilde_v_fixed_point k)) big_split /=.
  rewrite sumr_const card_ord -mulr_natr divfK // -mulr_sumr; congr (_ + _ * _).
  rewrite exchange_big /=; apply: eq_bigr => j _.
  by rewrite -mulr_suml A_rows mul1r.
move: (\sum_k x k 0) => S E.
apply: (mulfI (lt0r_neq0 mu_gt0)); rewrite mulr1.
have -> : mu * S = S - (1 - mu) * S by ring.
by rewrite {1}E addrK.
Qed.

(** X3: the returned reproductive values are normalised against the death
    probabilities: [sum_k d[k] v[k] = 1], that is, they sum to [N]. *)
Theorem location_weights_normalised :
  (0 < N)%N ->
  \sum_k d 0 k * location_weights spsolve e d mu 0 k = 1
  /\ \sum_k location_weights spsolve e d mu 0 k = N%:R.
Proof.
move=> Npos; have N0 : N%:R != 0 :> F by rewrite pnatr_eq0 -lt0n.
split.
  rewrite -[RHS](tilde_v_sum Npos); apply: eq_bigr => k _.
  by rewrite location_weights_scaled (death_probabilityE degree_gt0) mulKf.
under eq_bigr do rewrite location_weights_scaled.
by rewrite -mulr_sumr tilde_v_sum // mulr1.
Qed.

Lemma tilde_v_ge0 k : 0 <= x k 0.
Proof.
pose n (j : 'I_N) : F := Num.max 0 (- x j 0).
have n_ge0 j : 0 <= n j by rewrite /n le_max lexx.
have xn j : - x j 0 <= n j by rewrite /n le_max lexx orbT.
have mu1 : 0 <= 1 - mu by rewrite subr_ge0.
have step j : n j <= (1 - mu) * \sum_i A i j * n i.
  have rhs0 : 0 <= (1 - mu) * \sum_i A i j * n i.
    by rewrite mulr_ge0 // sumr_ge0 // => i _; rewrite mulr_ge0.
  rewrite /n ge_max rhs0 /= {1}tilde_v_fixed_point opprD.
  have N0 : 0 <= mu / N%:R :> F by rewrite divr_ge0 ?ler0n // ltW.
  apply: (@le_trans _ _ (- ((1 - mu) * \sum_i A i j * x i 0))).
    by rewrite gerDr oppr_le0.
  rewrite -mulrN ler_wpM2l // -sumrN ler_sum // => i _.
  by rewrite -mulrN ler_wpM2l.
have S0 : \sum_j n j <= 0.
  have : \sum_j n j <= (1 - mu) * \sum_j n j.
    apply: (le_trans (ler_sum _ (fun j _ => step j))).
    rewrite -mulr_sumr ler_wpM2l // exchange_big /= ler_sum // => i _.
    by rewrite -mulr_suml A_rows mul1r.
  rewrite -subr_le0.
  have -> : \sum_j n j - (1 - mu) * \sum_j n j = mu * \sum_j n j by ring.
  by rewrite pmulr_rle0.
have /eqP : \sum_j n j = 0.
  by apply/eqP; rewrite eq_le S0 sumr_ge0.
rewrite psumr_eq0; first by move=> j _.
move/allP/(_ k (mem_index_enum _)) => /= /eqP nk0.
by have := xn k; rewrite nk0 oppr_le0.
Qed.

(** X4: every reproductive value is at least the mutation rate, hence
    positive. *)
Theorem location_weights_ge_mu k :
  mu <= location_weights spsolve e d mu 0 k.
Proof.
have N0 : 0 < N%:R :> F by rewrite ltr0n; apply: leq_ltn_trans (ltn_ord k).
rewrite location_weights_scaled tilde_v_fixed_point mulrDr.
rewrite mulrCA divff ?gt_eqF // mulr1 lerDl.
rewrite mulr_ge0 ?ler0n // mulr_ge0 ?subr_ge0 // sumr_ge0 // => j _.
by rewrite mulr_ge0 // tilde_v_ge0.
Qed.

(** X5: on a regular graph (symmetric weights, all nodes of the same
    degree) every location has reproductive value 1. *)
Theorem location_weights_regular k :
  (forall i j, w i j = w j i) ->
  (forall i j, \sum_l w i l = \sum_l w j l) ->
  location_weights spsolve e d mu 0 k = 1.
Proof.
move=> w_sym w_reg.
have A_cols j : \sum_i A i j = 1.
  under eq_bigr => i _ do
    rewrite (transition_matrixE w) w_sym (w_reg i j).
  by rewrite -mulr_suml divff // gt_eqF.
have N0 : N%:R != 0 :> F.
  by rewrite pnatr_eq0 -lt0n; apply: leq_ltn_trans (ltn_ord k).
rewrite location_weights_scaled.
have -> : x = \col__ N%:R^-1 :> 'cV[F]_N.
  apply: (unit_solution_unique
            (taxed_walk_unit w_ge0 degree_gt0 mu_gt0 mu_le1)).
  rewrite (tilde_v_solves w_ge0 degree_gt0 mu_gt0 mu_le1 spsolveP).
  apply/colP => i; rewrite taxed_entry_tr !mxE.
  under eq_bigr do rewrite mxE.
  by rewrite -mulr_suml A_cols mul1r; ring.
by rewrite mxE divff.
Qed.

End LocationWeightsProperties.

(** X6: at mutation rate 1 every location has reproductive value 1,
    whatever the graph. *)
Theorem location_weights_mu1 (F : realFieldType) (spsolve : linear_solver F)
    (N : nat) (w : 'M[F]_N) k :
  (forall i j, 0 <= w i j) -> (forall i, 0 < \sum_j w i j) ->
  solves_nonsingular spsolve ->
  location_weights spsolve (marginal_transmission w) (death_probabilities w)
    1 0 k = 1.
Proof.
move=> w0 deg0 sp.
have N0 : N%:R != 0 :> F.
  by rewrite pnatr_eq0 -lt0n; apply: leq_ltn_trans (ltn_ord k).
rewrite location_weights_scaled // tilde_v_fixed_point //.
by rewrite subrr mul0r addr0 div1r divff.
Qed.

Lemma triangle_ge0 i j : 0 <= triangle i j.
Proof. by rewrite mxE ler0n. Qed.

Lemma triangle_degree i : 0 < \sum_j triangle i j.
Proof.
rewrite !big_ord_recl big_ord0 !mxE /=.
by case: i => [[|[|[|i]]] ilt] //=.
Qed.

Lemma triangle_sym i j : triangle i j = triangle j i.
Proof. by rewrite !mxE eq_sym. Qed.

Lemma triangle_regular i j : \sum_l triangle i l = \sum_l triangle j l.
Proof.
rewrite !big_ord_recl !big_ord0 !mxE /=.
by case: i j => [[|[|[|i]]] ilt] [[|[|[|j]]] jlt].
Qed.

Lemma location_weights_normalised_witness :
  \sum_k location_weights (inverse_solver rat) (marginal_transmission path3)
           (death_probabilities path3) (1 / 2) 0 k = 3%:R.
Proof.
by have [_ s] := location_weights_normalised path3_ge0 path3_degree
  (proj1 half_bounds) (proj2 half_bounds) (@inverse_solverP rat) isT.
Defined.

Lemma location_weights_ge_mu_witness :
  1 / 2 <= location_weights (inverse_solver rat) (marginal_transmission path3)
             (death_probabilities path3) (1 / 2) 0 ord0.
Proof.
exact: (location_weights_ge_mu path3_ge0 path3_degree
          (proj1 half_bounds) (proj2 half_bounds) (@inverse_solverP rat)).
Defined.

Lemma location_weights_regular_witness :
  location_weights (inverse_solver rat) (marginal_transmission triangle)
    (death_probabilities triangle) (1 / 2) 0 ord0 = 1.
Proof.
exact: (location_weights_regular triangle_ge0 triangle_degree
          (proj1 half_bounds) (proj2 half_bounds) (@inverse_solverP rat)
          ord0 triangle_sym triangle_regular).
Defined.

Lemma location_weights_mu1_witness :
  location_weights (inverse_solver rat) (marginal_transmission path3)
    (death_probabilities path3) 1 0 ord0 = 1.
Proof.
exact: (location_weights_mu1 ord0 path3_ge0 path3_degree (@inverse_solverP rat)).
Defined.

(** ** Identity by state *)

Section IdentityByStateBounds.

Variable F : realFieldType.
Variables spsolve lsqr : linear_solver F.
Variable N : nat.
Variable A : 'M[F]_N.
Variable mu : F.

Hypothesis A_ge0 : forall i j, 0 <= A i j.
Hypothesis A_stochastic : forall i, \sum_j A i j = 1.
Hypothesis mu_gt0 : 0 < mu.
Hypothesis mu_le1 : mu <= 1.

(** An average of the entries of [phi] lies between their bounds. *)
Lemma average_le (f : 'I_N -> F) (i : 'I_N) (t : F) :
  (forall s, f s <= t) -> \sum_s A i s * f s <= t.
Proof.
move=> ft; rewrite -[t]mul1r -(A_stochastic i) mulr_suml.
by apply: ler_sum => s _; rewrite ler_wpM2l.
Qed.

Lemma average_ge (f : 'I_N -> F) (i : 'I_N) (t : F) :
  (forall s, t <= f s) -> t <= \sum_s A i s * f s.
Proof.
move=> ft; rewrite -[t]mul1r -(A_stochastic i) mulr_suml.
by apply: ler_sum => s _; rewrite ler_wpM2l.
Qed.

Lemma ibs_equations_le1 (phi : 'M[F]_N) :
  ibs_equations A mu phi -> forall i j, phi i j <= 1.
Proof.
move=> E i j; pose f (p : 'I_N * 'I_N) := phi p.1 p.2.
case: (@Order.TotalTheory.arg_maxP _ _ _ (i, j) xpredT f isT) => -[a b] _ fmax.
suff top : f (a, b) <= 1 by apply: le_trans top; apply: (fmax (i, j)).
rewrite /f /=; have := E a b; case: ifP => [_ ->|_ eab] //.
have le1 : \sum_s A a s * phi s b <= phi a b.
  by apply: average_le => s; apply: (fmax (s, b)).
have le2 : \sum_t A b t * phi a t <= phi a b.
  by apply: average_le => t; apply: (fmax (a, t)).
have mu1 : 0 <= (1 - mu) / 2 by rewrite divr_ge0 ?subr_ge0.
have : phi a b <= mu / 2 + (1 - mu) / 2 * (phi a b + phi a b).
  by rewrite {1}eab lerD2l ler_wpM2l // lerD.
move: (phi a b) => m {eab le1 le2} H.
have : mu * m <= mu * (1 / 2).
  have -> : mu * m = m - (1 - mu) / 2 * (m + m) by field.
  by move: ((1 - mu) / 2 * (m + m)) H => t H; lra.
by rewrite ler_pM2l // => /le_trans; apply; lra.
Qed.

Lemma ibs_equations_ge_half (phi : 'M[F]_N) :
  ibs_equations A mu phi -> forall i j, 1 / 2 <= phi i j.
Proof.
move=> E i j; pose f (p : 'I_N * 'I_N) := phi p.1 p.2.
case: (@Order.TotalTheory.arg_minP _ _ _ (i, j) xpredT f isT) => -[a b] _ fmin.
suff bot : 1 / 2 <= f (a, b) by apply: (le_trans bot); apply: (fmin (i, j)).
rewrite /f /=; have := E a b; case: ifP => [_ ->|_ eab]; first by lra.
have le1 : phi a b <= \sum_s A a s * phi s b.
  by apply: average_ge => s; apply: (fmin (s, b)).
have le2 : phi a b <= \sum_t A b t * phi a t.
  by apply: average_ge => t; apply: (fmin (a, t)).
have mu1 : 0 <= (1 - mu) / 2 by rewrite divr_ge0 ?subr_ge0.
have : mu / 2 + (1 - mu) / 2 * (phi a b + phi a b) <= phi a b.
  by rewrite [X in _ <= X]eab lerD2l ler_wpM2l // lerD.
move: (phi a b) => m {eab le1 le2} H.
have : mu * (1 / 2) <= mu * m.
  have -> : mu * m = m - (1 - mu) / 2 * (m + m) by field.
  by move: ((1 - mu) / 2 * (m + m)) H => t H; lra.
by rewrite ler_pM2l.
Qed.

Hypothesis spsolveP : solves_nonsingular spsolve.
Hypothesis lsqrP : minimises_residual lsqr.

(** X7: for a mutation rate in (0, 1] and a row-stochastic [A], every entry
    of the matrix returned by [identity_by_state_probabilities] lies between
    1/2 and 1. *)
Theorem identity_by_state_bounds s :
  valid_solver s ->
  exists phi : 'M[F]_N,
    identity_by_state_probabilities spsolve lsqr A mu (PyStr s) = Return phi
    /\ forall i j, 1 / 2 <= phi i j <= 1.
Proof.
move=> vs.
have [x ex ->] :=
  identity_by_state_returns A_ge0 A_stochastic mu_gt0 mu_le1 spsolveP lsqrP vs.
exists (reshape_F x); split=> // i j.
have /system_solutionP E := ex.
by rewrite ibs_equations_ge_half // ibs_equations_le1.
Qed.

End IdentityByStateBounds.

Lemma identity_by_state_bounds_witness :
  exists phi : 'M[rat]_3,
    identity_by_state_probabilities (inverse_solver rat) (inverse_solver rat)
      (transition_matrix path3) (1 / 2) (PyStr "lsqr") = Return phi
    /\ forall i j, 1 / 2 <= phi i j <= 1.
Proof.
exact: (identity_by_state_bounds (transition_ge0 path3_ge0 path3_degree)
          (transition_row_sum path3_degree) (proj1 half_bounds)
          (proj2 half_bounds) (@inverse_solverP rat) (@inverse_solver_min rat)
          (s := "lsqr") isT).
Defined.

Section IdentityByStateEdges.

Variable F : realFieldType.
Variables spsolve lsqr : linear_solver F.
Variable N : nat.
Implicit Types (A : 'M[F]_N) (mu : F) (s : string).

Lemma system_mu1 A :
  (identity_by_state_system A 1).1 = 1%:M
  /\ (identity_by_state_system A 1).2
     = \col_r (if diagonal_pair r then 1 else 1 / 2).
Proof.
split; first apply/matrixP => r c.
  rewrite system_matrixE [RHS]mxE; case: ifP => // _.
  by rewrite subrr mul0r mul0r subr0.
by apply/colP => r; rewrite system_rhsE mxE.
Qed.

(** X8: at mutation rate 1 the returned matrix is 1 on the diagonal and
    1/2 elsewhere, whatever the matrix [A], for both solvers. *)
Theorem identity_by_state_mu1 A s :
  solves_nonsingular spsolve -> minimises_residual lsqr -> valid_solver s ->
  identity_by_state_probabilities spsolve lsqr A 1 (PyStr s)
  = Return (\matrix_(i, j) (if i == j then 1 else 1 / 2)).
Proof.
move=> sp ls; rewrite /valid_solver /identity_by_state_probabilities => vs.
rewrite [identity_by_state_system A 1]surjective_pairing vs /=.
have [eM eb] := system_mu1 A.
have sol (x : 'cV[F]_(N * N)) :
    (identity_by_state_system A 1).1 *m x = (identity_by_state_system A 1).2 ->
    reshape_F x = \matrix_(i, j) (if i == j then 1 else 1 / 2).
  rewrite eM mul1mx => ->; apply/matrixP => i j; rewrite eb !mxE.
  by rewrite /diagonal_pair index_hi_pair index_lo_pair eq_sym.
have uM : (identity_by_state_system A 1).1 \in unitmx by rewrite eM unitmx1.
by case: ifP => _; congr Return; apply: sol;
  [apply: sp | apply: minimiser_solves].
Qed.

Lemma lower_ascii_idem (ch : ascii) : lower_ascii (lower_ascii ch) = lower_ascii ch.
Proof. by case: ch => [[] [] [] [] [] [] [] []]; vm_compute. Qed.

Lemma lower_idem s : lower (lower s) = lower s.
Proof. by elim: s => //= ch s ->; rewrite lower_ascii_idem. Qed.

(** X9: [identity_by_state_probabilities] raises TypeError for a selector
    that is not a string and ValueError for a string whose lower-cased form
    is neither ['spsolve'] nor ['lsqr'], whatever the matrix and the
    mutation rate; the selector is read case-insensitively. *)
Theorem identity_by_state_selector A mu (solver : pyval F) :
  [/\ ~~ isinstance_str solver ->
        identity_by_state_probabilities spsolve lsqr A mu solver
        = Raise (TypeError msg_solver_type),
      forall s, lower s \notin [:: "spsolve"%string; "lsqr"%string] ->
        identity_by_state_probabilities spsolve lsqr A mu (PyStr s)
        = Raise (ValueError msg_solver_value)
    & forall s,
        identity_by_state_probabilities spsolve lsqr A mu (PyStr s)
        = identity_by_state_probabilities spsolve lsqr A mu (PyStr (lower s))].
Proof.
rewrite /identity_by_state_probabilities.
rewrite [identity_by_state_system A mu]surjective_pairing.
split=> [|s ->|s] //; first by case: solver.
by rewrite lower_idem.
Qed.

End IdentityByStateEdges.

Lemma identity_by_state_mu1_witness :
  identity_by_state_probabilities (inverse_solver rat) (inverse_solver rat)
    path3 1 (PyStr "SPSOLVE")
  = Return (\matrix_(i, j) (if i == j then 1 else 1 / 2)).
Proof.
exact: (identity_by_state_mu1 path3 (@inverse_solverP rat)
          (@inverse_solver_min rat) (s := "SPSOLVE") isT).
Defined.

Lemma identity_by_state_selector_witness :
  identity_by_state_probabilities (inverse_solver rat) (inverse_solver rat)
    path3 (1 / 2) (PyStr "LSQR")
  = identity_by_state_probabilities (inverse_solver rat) (inverse_solver rat)
      path3 (1 / 2) (PyStr "lsqr").
Proof.
have [_ _ insensitive] := @identity_by_state_selector rat (inverse_solver rat)
  (inverse_solver rat) 3 path3 (1 / 2) PyNone.
exact: (insensitive "LSQR"%string).
Defined.

(** ** Structure coefficients and the calculation runner *)

Section StructureCoefficientsClosedForm.

Variable F : realFieldType.
Variables spsolve lsqr : linear_solver F.
Variable N : nat.
Implicit Types (structure A phi : 'M[F]_N) (v : 'rV[F]_N) (mu : F).
Implicit Types (m : 'I_N -> 'M[F]_N) (i j k : 'I_N).

(** One pass of the loop adds its two terms to the accumulators. *)
Lemma structure_term_add m v phi mu (K : 'M[F]_N * 'M[F]_N) j :
  structure_term m v phi mu K j
  = (K.1 + (structure_term m v phi mu (0, 0) j).1,
     K.2 + (structure_term m v phi mu (0, 0) j).2).
Proof. by case: K => K1 K2; rewrite /structure_term /= !add0r. Qed.

Lemma foldl_structure_term m v phi mu (s : seq 'I_N) (K : 'M[F]_N * 'M[F]_N) :
  foldl (structure_term m v phi mu) K s
  = (K.1 + \sum_(j <- s) (structure_term m v phi mu (0, 0) j).1,
     K.2 + \sum_(j <- s) (structure_term m v phi mu (0, 0) j).2).
Proof.
elim: s K => [|j s IH] K /=; first by rewrite !big_nil !addr0 -surjective_pairing.
by rewrite IH structure_term_add /= !big_cons !addrA.
Qed.

Lemma col_plusE (u : 'cV[F]_N) (X : 'M[F]_N) i k :
  col_plus u X i k = u i 0 + X i k.
Proof. by rewrite mxE. Qed.

Lemma col_minusE (u : 'cV[F]_N) (X : 'M[F]_N) i k :
  col_minus u X i k = u i 0 - X i k.
Proof. by rewrite mxE. Qed.

Lemma weighted_column v (X : 'M[F]_N) i :
  (v *m X)^T i 0 = \sum_r v 0 r * X r i.
Proof. by rewrite mxE mxE. Qed.

Lemma weighted_rows v (X phi : 'M[F]_N) i k :
  ((\matrix_(r, c) (v^T r 0 * X r c))^T *m phi) i k
  = \sum_r v 0 r * X r i * phi r k.
Proof. by rewrite mxE; apply: eq_bigr => r _; rewrite mxE mxE mxE. Qed.

Lemma row_product (U : 'rV[F]_N) phi j i :
  (\row_c (U 0 c * row j phi 0 c))^T i 0 = U 0 i * phi j i.
Proof. by rewrite mxE mxE mxE. Qed.

Lemma outer_product (U : 'rV[F]_N) phi j i k :
  (U^T *m row j phi) i k = U 0 i * phi j k.
Proof. by rewrite mxE big_ord1 mxE mxE. Qed.

Lemma structure_term1E m v phi mu j i k :
  (structure_term m v phi mu (0, 0) j).1 i k
  = 1 / (2 * mu)
    * (- (\sum_r v 0 r * (m j r i * phi r i)
          + \sum_r v 0 r * m j r i * phi r k)
       + (1 - mu) * ((v *m m j) 0 i * phi j i + (v *m m j) 0 i * phi j k)
       + (\sum_c (v *m m j) 0 c) / N%:R).
Proof.
rewrite /structure_term /= add0r [LHS]mxE; congr (_ * _).
rewrite [LHS]mxE; congr (_ + _); rewrite [LHS]mxE; congr (_ + _).
  rewrite [LHS]mxE col_plusE weighted_column weighted_rows; congr (- (_ + _)).
  by apply: eq_bigr => r _; rewrite mxE.
by rewrite [LHS]mxE col_plusE row_product outer_product.
Qed.

Lemma structure_term2E m v phi mu j i k :
  (structure_term m v phi mu (0, 0) j).2 i k
  = 1 / (2 * mu)
    * (- (\sum_r v 0 r * (m j r i * phi r i)
          - \sum_r v 0 r * m j r i * phi r k)
       + (1 - mu) * ((v *m m j) 0 i * phi j i - (v *m m j) 0 i * phi j k)).
Proof.
rewrite /structure_term /= add0r [LHS]mxE; congr (_ * _).
rewrite [LHS]mxE; congr (_ + _).
  rewrite [LHS]mxE col_minusE weighted_column weighted_rows; congr (- (_ - _)).
  by apply: eq_bigr => r _; rewrite mxE.
by rewrite [LHS]mxE col_minusE row_product outer_product.
Qed.

Section RowStochastic.

Variable A : 'M[F]_N.
Hypothesis A_rows : forall r, \sum_c A r c = 1.

Local Notation m := (marginal_fecundity_effects A).

Lemma fecundity_row_sum0 j r : \sum_c m j r c = 0.
Proof.
under eq_bigr do rewrite marginal_fecundity_effectsE.
rewrite big_split /=.
have -> : \sum_c - (A r c * A r j) / N%:R = - (A r j / N%:R).
  under eq_bigr do rewrite mulNr -mulrA.
  by rewrite sumrN -mulr_suml A_rows mul1r.
have -> : \sum_c (c == j)%:R * (A r j / N%:R) = A r j / N%:R.
  under eq_bigr do rewrite eq_sym.
  exact: (sum_delta j (fun=> A r j / N%:R)).
by rewrite addNr.
Qed.

Lemma fecundity_index_sum0 r c : \sum_j m j r c = 0.
Proof.
under eq_bigr do rewrite marginal_fecundity_effectsE.
rewrite big_split /=.
have -> : \sum_j - (A r c * A r j) / N%:R = - (A r c / N%:R).
  under eq_bigr do rewrite mulNr mulrAC.
  by rewrite sumrN -mulr_sumr A_rows mulr1.
have -> : \sum_j (c == j)%:R * (A r j / N%:R) = A r c / N%:R.
  exact: (sum_delta c (fun j => A r j / N%:R)).
by rewrite addNr.
Qed.

Lemma weighted_fecundity_sum0 v j : \sum_c (v *m m j) 0 c = 0.
Proof.
under eq_bigr do rewrite mxE.
rewrite exchange_big /= big1 // => r _.
by rewrite -mulr_sumr fecundity_row_sum0 mulr0.
Qed.

Lemma term1_sum0 v phi i : \sum_j \sum_r v 0 r * (m j r i * phi r i) = 0.
Proof.
rewrite exchange_big /= big1 // => r _.
under eq_bigr do rewrite mulrA mulrAC.
by rewrite -mulr_sumr fecundity_index_sum0 mulr0.
Qed.

Lemma term2_sum0 v phi i k : \sum_j \sum_r v 0 r * m j r i * phi r k = 0.
Proof.
rewrite exchange_big /= big1 // => r _.
under eq_bigr do rewrite mulrAC.
by rewrite -mulr_sumr fecundity_index_sum0 mulr0.
Qed.

Lemma coefficients_sum1 v phi mu i k :
  (\sum_j (structure_term m v phi mu (0, 0) j).1) i k
  = (1 - mu) / (2 * mu) * \sum_j (v *m m j) 0 i * (phi j i + phi j k).
Proof.
rewrite summxE.
under eq_bigr do rewrite structure_term1E weighted_fecundity_sum0 mul0r addr0.
rewrite -mulr_sumr big_split /= sumrN big_split /= term1_sum0 term2_sum0.
rewrite addr0 oppr0 add0r -mulr_sumr mulrA [1 / _ * _]mulrC mulrA mulr1.
by congr (_ * _); apply: eq_bigr => j _; rewrite mulrDr.
Qed.

Lemma coefficients_sum2 v phi mu i k :
  (\sum_j (structure_term m v phi mu (0, 0) j).2) i k
  = (1 - mu) / (2 * mu) * \sum_j (v *m m j) 0 i * (phi j i - phi j k).
Proof.
rewrite summxE.
under eq_bigr do rewrite structure_term2E.
rewrite -mulr_sumr big_split /= sumrN sumrB term1_sum0 term2_sum0.
rewrite subr0 oppr0 add0r -mulr_sumr mulrA [1 / _ * _]mulrC mulrA mulr1.
by congr (_ * _); apply: eq_bigr => j _; rewrite mulrBr.
Qed.

End RowStochastic.

(** X10: on a graph whose nodes all have positive degree, for a non-zero
    mutation rate (the code divides by [2 mu]) and a valid selector,
    [structure_coefficients] returns, with the adjacency and the transition
    matrix, the matrices
    [K1[i][k] = (1 - mu) / (2 mu) sum_j u_j[i] (phi[j][i] + phi[j][k])] and
    [K2[i][k] = (1 - mu) / (2 mu) sum_j u_j[i] (phi[j][i] - phi[j][k])],
    where [phi] is the matrix of identity-by-state probabilities and
    [u_j = v m[j]] the reproductive values applied to the [j]-th matrix of
    marginal effects: the terms 1, 2 and 5 of the loop cancel.  So the
    diagonal of [K2] is zero, and both matrices vanish at mutation rate 1. *)
Theorem structure_coefficients_closed_form structure mu s :
  (forall i, 0 < \sum_j structure i j) -> mu != 0 -> valid_solver s ->
  let A := transition_matrix structure in
  let v := location_weights spsolve (marginal_transmission structure)
             (death_probabilities structure) mu in
  let u := fun j => v *m marginal_fecundity_effects A j in
  exists phi K1 K2 : 'M[F]_N,
    [/\ identity_by_state_probabilities spsolve lsqr A mu (PyStr s) = Return phi,
        structure_coefficients spsolve lsqr structure mu (PyStr s)
        = Return (K1, K2, structure, A),
        forall i k,
          K1 i k = (1 - mu) / (2 * mu) * \sum_j u j 0 i * (phi j i + phi j k),
        forall i k,
          K2 i k = (1 - mu) / (2 * mu) * \sum_j u j 0 i * (phi j i - phi j k)
      & (forall i, K2 i i = 0) /\ (mu = 1 -> K1 = 0 /\ K2 = 0)].
Proof.
move=> deg0 _ vs A v u.
have A_rows := transition_row_sum deg0.
have := identity_by_state_valid spsolve lsqr A mu (solver := PyStr s) vs.
case ephi: (identity_by_state_probabilities _ _ _ _ _) => [phi|] // _.
pose S1 := \sum_j (structure_term (marginal_fecundity_effects A) v phi mu (0, 0) j).1.
pose S2 := \sum_j (structure_term (marginal_fecundity_effects A) v phi mu (0, 0) j).2.
have K1E i k : S1 i k
    = (1 - mu) / (2 * mu) * \sum_j u j 0 i * (phi j i + phi j k).
  exact: coefficients_sum1.
have K2E i k : S2 i k
    = (1 - mu) / (2 * mu) * \sum_j u j 0 i * (phi j i - phi j k).
  exact: coefficients_sum2.
exists phi, S1, S2; split=> //.
- rewrite /structure_coefficients /= -/(transition_matrix structure) -/A.
  rewrite -/(marginal_transmission structure) -/(death_probabilities structure).
  rewrite -/v ephi /= foldl_structure_term /= !add0r.
  by rewrite !big_enum.
- split=> [i|mu1].
    by rewrite K2E big1 ?mulr0 // => j _; rewrite subrr mulr0.
  by split; apply/matrixP => i k; rewrite ?K1E ?K2E mu1 subrr !mul0r mxE.
Qed.

End StructureCoefficientsClosedForm.

Lemma structure_coefficients_closed_form_witness :
  exists K1 K2 : 'M[rat]_3,
    structure_coefficients (inverse_solver rat) (inverse_solver rat) path3
      (1 / 2) (PyStr "lsqr")
    = Return (K1, K2, path3, transition_matrix path3)
    /\ forall i, K2 i i = 0.
Proof.
have [phi [K1 [K2 [_ eK _ _ [diag _]]]]] :=
  @structure_coefficients_closed_form rat (inverse_solver rat)
    (inverse_solver rat) 3 path3 (1 / 2) "lsqr" path3_degree isT isT.
by exists K1, K2.
Defined.

Section StructureCoefficientsProperties.

Variable F : realFieldType.
Variables spsolve lsqr : linear_solver F.
Variable N : nat.
Implicit Types (structure w A : 'M[F]_N) (b c mu : F) (solver good : pyval F).

(** X11: for a valid label, the value returned by [frequency_derivative] is
    linear in the pair (benefit, cost). *)
Theorem frequency_derivative_linear (K1 K2 : 'M[F]_N) w A good
    (t b1 c1 b2 c2 : F) :
  valid_good good ->
  exists f1 f2,
    [/\ frequency_derivative K1 K2 w A b1 c1 good = Return f1,
        frequency_derivative K1 K2 w A b2 c2 good = Return f2
      & frequency_derivative K1 K2 w A (t * b1 + b2) (t * c1 + c2) good
        = Return (t * f1 + f2)].
Proof.
case: good => //= s ->; case: ifP => _.
  by do 2!eexists; split=> //; congr Return; ring.
by do 2!eexists; split=> //; congr Return; ring.
Qed.

(** X12: with a valid selector and a non-empty sequence of non-zero
    mutation rates, [run_calculations] returns two sequences as long as the
    input whose [k]-th entries are the two effects computed for the [k]-th
    mutation rate, whatever the order in which the tasks ran. *)
Theorem run_calculations_index_aligned order structure b c
    (mutation_rates : seq F) solver :
  valid_solver_arg solver -> mutation_rates != [::] ->
  all (fun mu => mu != 0) mutation_rates ->
  perm_eq order (iota 0 (size mutation_rates)) ->
  exists ffs pps : seq F,
    [/\ run_calculations spsolve lsqr order structure b c mutation_rates solver
        = (order, Return (ffs, pps)),
        size ffs = size mutation_rates, size pps = size mutation_rates
      & forall k, (k < size mutation_rates)%N ->
          run_single_calculation spsolve lsqr structure b c solver
            (nth 0 mutation_rates k)
          = Return (nth 0 ffs k, nth 0 pps k)].
Proof.
move=> vs r0 _ po; rewrite run_calculations_aligned //.
do 2!eexists; split=> //; rewrite ?size_map // => k ks.
rewrite !(nth_map 0) // /single_effects.
by case: (run_single_calculation _ _ _ _ _ _ _)
     (run_single_calculation_valid spsolve lsqr structure b c
        (nth 0 mutation_rates k) vs) => // -[ff pp].
Qed.

End StructureCoefficientsProperties.

Lemma frequency_derivative_linear_witness :
  exists f1 f2 : rat,
    [/\ frequency_derivative path3 path3 path3 path3 1 2 (PyStr "PP") = Return f1,
        frequency_derivative path3 path3 path3 path3 3 4 (PyStr "PP") = Return f2
      & frequency_derivative path3 path3 path3 path3 (5 * 1 + 3) (5 * 2 + 4)
          (PyStr "PP") = Return (5 * f1 + f2)].
Proof.
exact: (@frequency_derivative_linear rat 3 path3 path3 path3 path3 (PyStr "PP")
          5 1 2 3 4 isT).
Defined.

Lemma run_calculations_index_aligned_witness :
  exists ffs pps : seq rat,
    [/\ run_calculations (inverse_solver rat) (inverse_solver rat)
          [:: 1%N; 0%N] path3 2 1 [:: 1 / 2; 1 / 3] (PyStr "spsolve")
        = ([:: 1%N; 0%N], Return (ffs, pps)),
        size ffs = 2%N, size pps = 2%N
      & forall k, (k < 2)%N ->
          run_single_calculation (inverse_solver rat) (inverse_solver rat)
            path3 2 1 (PyStr "spsolve") (nth 0 [:: 1 / 2; 1 / 3] k)
          = Return (nth 0 ffs k, nth 0 pps k)].
Proof.
exact: (@run_calculations_index_aligned rat (inverse_solver rat)
          (inverse_solver rat) 3 [:: 1%N; 0%N] path3 2 1 [:: 1 / 2; 1 / 3]
          (PyStr "spsolve") isT isT isT isT).
Defined.

(** * Further properties of the simulation *)

(** ** Mean frequencies *)

Section MeanFrequencyProperties.

Variable F : realFieldType.
Implicit Types (pop : Population F) (trait : option int) (state : seq int).

Lemma mean_frequency_count pop (t : int) :
  mean_frequency pop (Some t)
  = (count (pred1 t) (_state pop))%:R / (_population_size pop)%:R.
Proof.
by rewrite /mean_frequency size_filter.
Qed.

Lemma mean_frequency_bounds pop trait :
  (0 < _population_size pop)%N -> size (_state pop) = _population_size pop ->
  0 <= mean_frequency pop trait <= 1.
Proof.
move=> Npos sz.
rewrite /mean_frequency divr_ge0 ?ler0n //= ler_pdivrMr ?ltr0n // mul1r.
by rewrite ler_nat -sz size_filter count_size.
Qed.

(** X14: in a non-empty population with one state per individual, the
    mean frequency of any trait lies between 0 and 1, and it is 0 when no
    trait is given. *)
Theorem mean_frequency_range pop trait :
  (0 < _population_size pop)%N -> size (_state pop) = _population_size pop ->
  0 <= mean_frequency pop trait <= 1 /\ mean_frequency pop None = 0.
Proof.
move=> Npos sz; split; first exact: mean_frequency_bounds.
by rewrite /mean_frequency (@eq_in_filter _ _ pred0) ?filter_pred0 ?mul0r.
Qed.

Lemma binary_sum state :
  binary_state state -> \sum_(x <- state) x = (count (pred1 (1 : int)) state)%:Z.
Proof.
elim: state => [|x s IH]; first by rewrite big_nil.
by rewrite /= big_cons => /andP[/orP[] /eqP-> /IH->].
Qed.

Lemma binary_count state :
  binary_state state ->
  (count (pred1 (0 : int)) state + count (pred1 (1 : int)) state)%N = size state.
Proof.
elim: state => [|x s IH] //= /andP[/orP[] /eqP-> /IH <-] /=.
  by rewrite add0n add1n addSn.
by rewrite add0n add1n addnS.
Qed.

(** X15: for a configuration of the traits 0 and 1, the mean frequency of
    trait 1 is the sum of the states divided by the population size, and
    the mean frequencies of the two traits add up to 1. *)
Theorem mean_frequency_binary pop :
  (0 < _population_size pop)%N -> size (_state pop) = _population_size pop ->
  binary_state (_state pop) ->
  mean_frequency pop (Some 1)
    = (\sum_(x <- _state pop) x)%:~R / (_population_size pop)%:R
  /\ mean_frequency pop (Some 0) + mean_frequency pop (Some 1) = 1.
Proof.
move=> Npos sz bin; rewrite !mean_frequency_count; split.
  by rewrite binary_sum.
rewrite -mulrDl -natrD binary_count // sz divff //.
by rewrite pnatr_eq0 -lt0n.
Qed.

End MeanFrequencyProperties.

Lemma mean_frequency_range_witness :
  0 <= mean_frequency path_population (Some 1%:Z) <= 1.
Proof.
by have [] := @mean_frequency_range rat path_population (Some 1%:Z) isT erefl.
Defined.

Lemma mean_frequency_binary_witness :
  mean_frequency path_population (Some 0) + mean_frequency path_population (Some 1)
  = 1.
Proof.
by have [] := @mean_frequency_binary rat path_population isT erefl isT.
Defined.

(** ** Payoffs *)

Section PayoffProperties.

Variable F : realFieldType.
Implicit Types (pop : Population F) (subset : seq nat).

(** Writing [f x] into slot [index x s] for every [x] of a part [l] of [s],
    when [s] may list an element several times. *)
Lemma foldl_set_first (f : nat -> F) (s l : seq nat) (acc : seq F) :
  {subset l <= s} -> size acc = size s ->
  let r := foldl (fun a x => set_nth 0 a (index x s) (f x)) acc l in
  size r = size s
  /\ forall k, (k < size s)%N ->
       nth 0 r k = if (index (nth 0%N s k) s == k) && (nth 0%N s k \in l)
                   then f (nth 0%N s k) else nth 0 acc k.
Proof.
elim: l acc => [|x l IH] acc sub sz /=.
  by split=> // k _; rewrite andbF.
have xs : x \in s by apply: sub; rewrite mem_head.
have sub' : {subset l <= s} by move=> y yl; apply: sub; rewrite inE yl orbT.
have sz' : size (set_nth 0 acc (index x s) (f x)) = size s.
  by rewrite size_set_nth sz; apply/maxn_idPr; rewrite index_mem.
have [-> IHn] := IH _ sub' sz'; split=> // k ks.
rewrite (IHn _ ks) inE nth_set_nth /= andb_orr.
case: (_ && (_ \in l)); first by rewrite orbT.
rewrite orbF; case: (k =P index x s) => [->|ne].
  by rewrite nth_index // !eqxx.
case: ifP => // /andP[/eqP ek /eqP ex].
by case: ne; rewrite -ex.
Qed.

(** X16: [payoff] returns one entry for each position of [subset]; the
    entry at the first position of a node is the payoff of that node, and
    a later position of a node listed again keeps the initial 0. *)
Theorem payoff_positions pop subset :
  size (payoff pop subset) = size subset
  /\ forall k, (k < size subset)%N ->
       nth 0 (payoff pop subset) k
       = if index (nth 0%N subset k) subset == k
         then individual_payoff pop (nth 0%N subset k) else 0.
Proof.
have [] := @foldl_set_first (individual_payoff pop) subset subset
  (nseq (size subset) 0) (fun _ h => h) (size_nseq _ _).
rewrite -/(payoff pop subset) => sz nths; split=> // k ks.
by rewrite nths // mem_nth // andbT nth_nseq ks.
Qed.

Lemma Population_init_Return G state (good : pyval F) b c rate intensity pop :
  Population_init G state good b c rate intensity = Return pop ->
  [/\ valid_state G state, valid_good good, valid_rate rate,
      valid_intensity intensity
    & pop = mkPopulation G (number_of_nodes G) state (lower (str_of good)) b c
              (num_of rate) (num_of intensity)].
Proof.
rewrite /Population_init /valid_state /valid_rate /valid_intensity.
case: (size state == number_of_nodes G) => //=.
case: good => [|?|?|?|s] //=.
case: (lower s \in _) => //=.
rewrite -/(is_real rate) -/(is_real intensity).
case: (is_real rate) => //=.
rewrite -not_ltr_or; case: (_ || _) => //=.
case: (is_real intensity) => //=.
by rewrite leNgt; case: (_ < 0) => //= -[<-].
Qed.

(** X17: a population constructed with a label [s] computes additive
    payoffs when the lower-cased label is ['ff'] and proportional payoffs
    otherwise, so ['FF'] behaves as ['ff']. *)
Theorem payoff_after_init G state s b c rate intensity pop subset :
  Population_init G state (PyStr s) b c rate intensity = Return pop ->
  uniq subset ->
  payoff pop subset
  = [seq (if lower s == "ff"%string then additive_payoff pop i
          else proportional_payoff pop i) | i <- subset].
Proof.
case/Population_init_Return => _ _ _ _ -> us; rewrite payoff_map //.
by apply: eq_map => i; rewrite individual_payoffE /spec_payoff.
Qed.

End PayoffProperties.

Lemma payoff_positions_witness :
  nth 0 (payoff path_population [:: 0%N; 0%N]) 1 = 0.
Proof.
have [_ entries] := @payoff_positions rat path_population [:: 0%N; 0%N].
exact: (entries 1%N isT).
Defined.

Lemma payoff_after_init_witness :
  payoff path_population [:: 0%N; 2%N]
  = [seq additive_payoff path_population i | i <- [:: 0%N; 2%N]].
Proof.
exact: (@payoff_after_init rat path_graph [:: 1%:Z; 0%:Z; 1%:Z] "ff" 2 1
          (PyFloat (1 / 2)) (PyFloat (1 / 10)) path_population
          [:: 0%N; 2%N] erefl isT).
Defined.

(** ** Possible outcomes *)

Section ListedIntro.

Variable F : realFieldType.
Implicit Types (T U : Type).

Lemma listed_dret_intro T (x : T) : listed (F := F) (dret x) x.
Proof. by exists 1; left. Qed.

Lemma listed_dbind_intro T U (d : dist F T) (k : T -> dist F U) x y :
  listed d x -> listed (k x) y -> listed (dbind d k) y.
Proof.
case=> p inx [q iny]; exists (p * q); rewrite /dbind.
elim: d inx => [|[p' x'] d IH] //= [[-> ->]|/IH ind]; apply: List.in_or_app.
  left; exact: (List.in_map (fun qy : F * U => (p * qy.1, qy.2)) _ (q, y) iny).
by right.
Qed.

Lemma listed_drbind_intro T U (d : dist F (result T))
    (k : T -> dist F (result U)) x r :
  listed d (Return x) -> listed (k x) r -> listed (drbind d k) r.
Proof. by move=> ld lk; apply: (listed_dbind_intro ld). Qed.

Lemma mem_In (s : seq nat) (x : nat) : x \in s -> List.In x s.
Proof.
elim: s => //= y s IH; rewrite inE => /orP[/eqP->|/IH]; first by left.
by right.
Qed.

Lemma listed_randint_intro (n k : nat) :
  (k < n)%N -> listed (np_random_randint F n) (Return k).
Proof.
move=> kn; rewrite /np_random_randint; case: eqP kn => [->|_ kn] //.
exists (1 / (size (iota 0 n))%:R).
apply: (List.in_map (fun px : F * nat => (px.1, Return px.2)) _
          (1 / (size (iota 0 n))%:R, k)).
apply: (List.in_map (fun x : nat => (1 / (size (iota 0 n))%:R : F, x))).
by apply: mem_In; rewrite mem_iota.
Qed.

Lemma listed_choice_intro (a : seq nat) (h : nat -> F) l :
  a != [::] -> (forall x, 0 <= h x) -> \sum_(x <- a) h x = 1 -> l \in a ->
  listed (np_random_choice a [seq h x | x <- a]) (Return l).
Proof.
move=> a0 h0 h1 la; rewrite /np_random_choice (negbTE a0) size_map eqxx /=.
rewrite big_map h1 eqxx orbF.
have -> : all (fun x => 0 <= x) [seq h l | l <- a].
  by rewrite all_map; apply/allP => x _ /=.
rewrite /= -{1}[a]map_id zip_map -map_comp; exists (h l).
exact: (List.in_map (fun x : nat => (h x, Return x)) _ l (mem_In la)).
Qed.

Lemma listed_rand_lt_intro (t : F) (m : bool) : listed (np_random_rand_lt t) m.
Proof.
case: m; first by eexists; left.
by eexists; right; left.
Qed.

Lemma listed_randint_array_intro (s : seq int) :
  binary_state s -> listed (np_random_randint_array F (size s)) s.
Proof.
elim: s => [|x s IH] /=; first by move=> _; apply: listed_dret_intro.
case/andP=> x01 /IH ls.
apply: (@listed_dbind_intro _ _ _ _ x); last first.
  by apply: (listed_dbind_intro ls); apply: listed_dret_intro.
exists (1 / 2%:R); case/orP: x01 => /eqP->; first by left.
by right; left.
Qed.

End ListedIntro.

Section UpdateIntro.

Variable F : realFieldType.
Variable exp : F -> F.
Hypothesis exp_gt0 : forall x, 0 < exp x.
Implicit Types (pop : Population F) (trait : option int).

(** Every draw of the law is a possible outcome of one update. *)
Lemma listed_update_once_intro pop death birth mutated :
  valid_population pop -> (death < _population_size pop)%N ->
  birth \in neighbors (_structure pop) death ->
  listed (update_once exp pop) (drawn pop death birth mutated).
Proof.
case=> Npos sz nb rate dN bn; have [n0 un _] := nb _ dN.
rewrite /update_once.
apply: (listed_drbind_intro (listed_randint_intro F dN)).
rewrite [payoff pop _]payoff_map // np_max_neighbors //.
apply: (listed_drbind_intro (listed_dret_intro _ _)).
rewrite /= -(payoff_map _ un) (choice_probabilities _ un n0).
have h0 l' := birth_probability_ge0 exp_gt0 l' n0.
have h1 := birth_probability_sum exp_gt0 n0.
apply: (listed_drbind_intro (listed_choice_intro n0 h0 h1 bn)).
apply: (listed_dbind_intro (listed_rand_lt_intro _ mutated)).
exact: listed_dret_intro.
Qed.

Lemma listed_update_population_one pop (t : int) death birth mutated :
  valid_population pop -> (death < _population_size pop)%N ->
  birth \in neighbors (_structure pop) death ->
  listed (update_population exp pop (Some t) 1)
    (Return (replaced pop death birth mutated,
             Some [:: mean_frequency (replaced pop death birth mutated) (Some t)])).
Proof.
move=> vp dN bn; rewrite /update_population /=.
apply: (@listed_drbind_intro _ _ _ _ _
          (replaced pop death birth mutated,
           [:: mean_frequency (replaced pop death birth mutated) (Some t)]));
  last exact: listed_dret_intro.
apply: (listed_drbind_intro (listed_update_once_intro mutated vp dN bn)).
exact: listed_dret_intro.
Qed.

End UpdateIntro.

(** ** Invariants of the updates *)

Section UpdateInvariants.

Variable F : realFieldType.
Variable exp : F -> F.
Hypothesis exp_gt0 : forall x, 0 < exp x.
Implicit Types (pop : Population F) (trait : option int) (state : seq int).

Lemma with_state_id pop : with_state pop (_state pop) = pop.
Proof. by case: pop. Qed.

Lemma binary_nth state k : binary_state state -> (nth 0 state k == 0) || (nth 0 state k == 1).
Proof.
move=> bin; case: (ltnP k (size state)) => ks; first exact: (all_nthP 0 bin).
by rewrite nth_default.
Qed.

Lemma binary_set_nth state k (y : int) :
  binary_state state -> (k < size state)%N -> (y == 0) || (y == 1) ->
  binary_state (set_nth 0 state k y).
Proof.
move=> bin ks y01; apply/(all_nthP 0) => j; rewrite size_set_nth (maxn_idPr ks) => js.
by rewrite nth_set_nth /=; case: ifP => // _; apply: (all_nthP 0 bin).
Qed.

Lemma step_invariants pop pop' :
  valid_population pop -> death_birth_step pop pop' ->
  [/\ valid_population pop', pop' = with_state pop (_state pop'),
      size (_state pop') = size (_state pop)
    & binary_state (_state pop) -> binary_state (_state pop')].
Proof.
move=> vp [death [birth [mutated [dN bn ->]]]].
have vp' := valid_replaced birth mutated vp dN.
case: vp => Npos sz nb rate; split=> //=.
  by rewrite size_set_nth sz; apply/maxn_idPr.
move=> bin; apply: binary_set_nth => //; first by rewrite sz.
rewrite /offspring; have := binary_nth birth bin.
by case: (mutated) => // /orP[] /eqP->.
Qed.

Lemma trajectory_invariants pop pops :
  valid_population pop -> trajectory pop pops ->
  [/\ valid_population (last pop pops),
      last pop pops = with_state pop (_state (last pop pops)),
      size (_state (last pop pops)) = size (_state pop)
    & binary_state (_state pop) -> binary_state (_state (last pop pops))].
Proof.
elim: pops pop => [|pop1 pops IH] pop vp /=.
  by move=> _; split=> //; rewrite with_state_id.
case=> /(step_invariants vp) [vp1 e1 sz1 bin1] /(IH _ vp1) [vpl el szl binl].
split=> //; first by rewrite {1}el e1.
- by rewrite szl.
- by move=> /bin1.
Qed.

Lemma trajectory_frequencies pop pops trait :
  valid_population pop -> trajectory pop pops ->
  all (fun f : F => 0 <= f <= 1) [seq mean_frequency p trait | p <- pops].
Proof.
elim: pops pop => [|pop1 pops IH] pop vp //=.
case=> /(step_invariants vp) [vp1 _ _ _] /(IH _ vp1) ->; rewrite andbT.
by case: vp1 => Npos sz _ _; apply: mean_frequency_bounds.
Qed.

Lemma listed_update_population pop trait n pop' mf :
  valid_population pop ->
  listed (update_population exp pop trait n) (Return (pop', mf)) ->
  exists pops,
    [/\ trajectory pop pops, size pops = n, pop' = last pop pops
      & mf = if trait != None
             then Some [seq mean_frequency p trait | p <- pops] else None].
Proof.
move=> vp; rewrite /update_population => l.
have [[[pop1 mf1] lx lr]|[e le]] := listed_drbind l; last by [].
have [-> ->] := listed_dret lr.
have [|pops [tr sz [-> ->]]] := listed_update_loop exp_gt0 vp _ lx.
  by rewrite size_nseq add0n.
by exists pops; split=> //=; rewrite take0.
Qed.

(** X18: an update of a valid population changes nothing but the
    configuration of traits, which keeps its length, and a configuration
    of the traits 0 and 1 stays one. *)
Theorem update_population_invariants pop trait n pop' mf :
  valid_population pop ->
  listed (update_population exp pop trait n) (Return (pop', mf)) ->
  [/\ valid_population pop', pop' = with_state pop (_state pop'),
      size (_state pop') = size (_state pop)
    & binary_state (_state pop) -> binary_state (_state pop')].
Proof.
move=> vp /(listed_update_population vp) [pops [tr _ -> _]].
exact: trajectory_invariants.
Qed.

(** X22: the array returned by [update_population] for a trait has one
    entry for each update, each between 0 and 1. *)
Theorem update_population_frequencies pop (t : int) n pop' mf :
  valid_population pop ->
  listed (update_population exp pop (Some t) n) (Return (pop', Some mf)) ->
  size mf = n /\ all (fun f : F => 0 <= f <= 1) mf.
Proof.
move=> vp /(listed_update_population vp) [pops [tr sz _ [->]]].
by rewrite size_map sz (trajectory_frequencies _ vp tr).
Qed.

Lemma np_mean_range (l : seq F) :
  l != [::] -> all (fun f : F => 0 <= f <= 1) l -> 0 <= np_mean l <= 1.
Proof.
move=> l0 /allP lr; have sz : 0 < (size l)%:R :> F by rewrite ltr0n lt0n size_eq0.
rewrite /np_mean divr_ge0 ?ler0n //=.
  by rewrite big_seq sumr_ge0 // => x /lr /andP[].
rewrite ler_pdivrMr // mul1r -sum1_size natr_sum big_seq [leRHS]big_seq.
by apply: ler_sum => x /lr /andP[].
Qed.

Lemma valid_constructed G state (good rate intensity : pyval F) b c pop :
  valid_graph G ->
  Population_init G state good b c rate intensity = Return pop ->
  valid_population pop.
Proof.
case=> Npos nb /Population_init_Return [/eqP sz _ /andP[_ rate01] _ ->].
by split.
Qed.

(** X23: on a graph whose nodes all have neighbours, the value a
    simulation of at least one update returns for a trait is a number
    between 0 and 1. *)
Theorem run_single_simulation_range G (good intensity : pyval F) b c n
    (t : int) mu f :
  valid_graph G -> (0 < n)%N ->
  listed (run_single_simulation exp G good b c intensity n (Some t) mu)
    (Return f) ->
  0 <= f <= 1.
Proof.
move=> vG npos; rewrite /run_single_simulation => l.
have [state _ {}l] := listed_dbind l.
have [[pop lp {}l]|[e _]] := listed_drbind l; last by [].
have vp := valid_constructed vG (esym (listed_dret lp)).
have [[[pop' [mf|]] lu {}l]|[e _]] := listed_drbind l => //; last first.
  by have := listed_dret l.
have [pops [tr sz _ [emf]]] := listed_update_population vp lu.
have [->] := listed_dret l; rewrite emf; apply: np_mean_range.
  by rewrite -size_eq0 size_map sz -lt0n.
exact: trajectory_frequencies tr.
Qed.

(** X21: without a trait [update_population] returns [None], so the
    simulation of a mutation rate never returns a value. *)
Theorem run_single_simulation_no_trait G (good intensity : pyval F) b c n mu :
  all (fun r => ~~ returns r)
    (outcomes (run_single_simulation exp G good b c intensity n None mu)).
Proof.
have no r : listed (run_single_simulation exp G good b c intensity n None mu) r ->
    ~~ returns r.
  rewrite /run_single_simulation => l.
  have [state _ {}l] := listed_dbind l.
  have [[pop lp {}l]|[e _ ->]] := listed_drbind l => //.
  have [[[pop' mf] lu {}l]|[e _ ->]] := listed_drbind l => //.
  move: lu; rewrite /update_population => lu.
  have [[x _ lx]|[e _]] := listed_drbind lu => //.
  have [_ emf] := listed_dret lx; move: l; rewrite emf /= => l.
  by rewrite (listed_dret l).
rewrite /outcomes all_map.
elim: (run_single_simulation _ _ _ _ _ _ _ _ _) no => //= -[p r] d IH no.
have -> /= : ~~ returns r by apply: no; exists p; left.
by apply: IH => r' [q inq]; apply: no; exists q; right.
Qed.

End UpdateInvariants.

Lemma path_graph_valid : valid_graph path_graph.
Proof. by split=> //; do 3![case=> //]. Qed.

Lemma update_population_invariants_witness :
  binary_state (_state (replaced path_population 0 1 true)).
Proof.
have [_ _ _ bin] := update_population_invariants positive_weight_gt0
  valid_path_population
  (listed_update_population_one positive_weight_gt0 1%:Z true
     valid_path_population (death := 0) (birth := 1) isT isT).
exact: bin.
Defined.

Lemma update_population_frequencies_witness :
  all (fun f : rat => 0 <= f <= 1)
    [:: mean_frequency (replaced path_population 2 1 false) (Some 1%:Z)].
Proof.
by have [] := update_population_frequencies positive_weight_gt0
  valid_path_population
  (listed_update_population_one positive_weight_gt0 1%:Z false
     valid_path_population (death := 2) (birth := 1) isT isT).
Defined.

Section SimulationIntro.

Variable F : realFieldType.
Variable exp : F -> F.
Hypothesis exp_gt0 : forall x, 0 < exp x.

Lemma Population_init_valid G state (good rate intensity : pyval F) b c :
  valid_state G state -> valid_good good -> valid_rate rate ->
  valid_intensity intensity ->
  Population_init G state good b c rate intensity
  = Return (mkPopulation G (number_of_nodes G) state (lower (str_of good)) b c
              (num_of rate) (num_of intensity)).
Proof.
rewrite /Population_init /valid_state /valid_rate /valid_intensity => -> /=.
case: good => [|?|?|?|s] //= -> /=.
rewrite -/(is_real rate) -/(is_real intensity) => /andP[-> /=].
by rewrite -not_ltr_or => /negbTE-> /andP[-> /=]; rewrite leNgt => /negbTE->.
Qed.

Lemma listed_run_single_simulation_one G (good intensity : pyval F) b c
    (t : int) mu state pop death birth mutated :
  binary_state state ->
  Population_init G state good b c (PyFloat mu) intensity = Return pop ->
  valid_population pop -> (death < _population_size pop)%N ->
  birth \in neighbors (_structure pop) death ->
  listed (run_single_simulation exp G good b c intensity 1 (Some t) mu)
    (Return (np_mean
               [:: mean_frequency (replaced pop death birth mutated) (Some t)])).
Proof.
move=> bin init vp dN bn; rewrite /run_single_simulation.
have /Population_init_Return [/eqP sz _ _ _ _] := init.
rewrite -sz.
apply: (listed_dbind_intro (listed_randint_array_intro F bin)).
rewrite init; apply: (listed_drbind_intro (listed_dret_intro _ _)).
apply: (listed_drbind_intro
          (listed_update_population_one exp_gt0 t mutated vp dN bn)).
exact: listed_dret_intro.
Qed.

Lemma listed_Parallel_one (T : Type) (task : dist F (result T)) (y : T) :
  listed task (Return y) ->
  listed (Parallel (M := dist_monad F) [:: 0%N] [:: task])
    ([:: 0%N], Return [:: y]).
Proof.
move=> lt; rewrite /Parallel /=.
apply: (@listed_dbind_intro _ _ _ _ _ ([:: 0%N], Return [:: Some y]));
  last exact: listed_dret_intro.
by apply: (listed_dbind_intro lt); apply: listed_dret_intro.
Qed.

End SimulationIntro.

Lemma path_population_init :
  Population_init path_graph [:: 1%:Z; 0%:Z; 1%:Z] (PyStr "ff") (2 : rat) 1
    (PyFloat (1 / 2)) (PyFloat (1 / 10))
  = Return path_population.
Proof. exact: (@Population_init_valid rat path_graph _ (PyStr "ff")). Qed.

Lemma path_simulation_outcome :
  listed (run_single_simulation positive_weight path_graph (PyStr "ff") 2 1
            (PyFloat (1 / 10)) 1 (Some 1%:Z) (1 / 2))
    (Return (np_mean
               [:: mean_frequency (replaced path_population 0 1 false)
                     (Some 1%:Z)])).
Proof.
exact: (listed_run_single_simulation_one positive_weight_gt0 1%:Z false
          (state := [:: 1%:Z; 0%:Z; 1%:Z]) (death := 0) (birth := 1)
          isT path_population_init valid_path_population isT isT).
Qed.

Lemma run_single_simulation_range_witness :
  0 <= (np_mean [:: mean_frequency (replaced path_population 0 1 false)
                      (Some 1%:Z)] : rat) <= 1.
Proof.
exact: (run_single_simulation_range positive_weight_gt0 path_graph_valid
          (n := 1) isT path_simulation_outcome).
Defined.

Lemma run_simulations_aligned_witness :
  size [:: np_mean [:: mean_frequency (replaced path_population 0 1 false)
                         (Some 1%:Z)]] = 1%N :> nat.
Proof.
have [_ sz _] := @run_simulations_aligned rat positive_weight [:: 0%N]
  path_graph (PyStr "ff") 2 1 [:: 1 / 2] (PyFloat (1 / 10)) 1 (Some 1%:Z)
  _ _ isT (listed_Parallel_one path_simulation_outcome).
exact: sz.
Defined.

(** ** Weights of the outcomes *)

Section Weights.

Variable F : realFieldType.
Implicit Types (T U : Type).

Local Notation weights_ge0 d := (all (fun px => 0 <= px.1) d).

Lemma weights_dret T (x : T) : weights_ge0 (dret (F := F) x).
Proof. by rewrite /= ler01. Qed.

Lemma weights_dbind T U (d : dist F T) (k : T -> dist F U) :
  weights_ge0 d -> (forall x, weights_ge0 (k x)) -> weights_ge0 (dbind d k).
Proof.
move=> d0 k0; rewrite /dbind; elim: d d0 => [|[p x] d IH] //= /andP[p0 /IH d0].
rewrite all_cat d0 andbT all_map.
elim: (k x) (k0 x) => [|[q y] l IHl] //= /andP[q0 /IHl ->].
by rewrite mulr_ge0.
Qed.

Lemma weights_drbind T U (d : dist F (result T)) (k : T -> dist F (result U)) :
  weights_ge0 d -> (forall x, weights_ge0 (k x)) -> weights_ge0 (drbind d k).
Proof.
by move=> d0 k0; apply: weights_dbind => // -[x|e] //; apply: weights_dret.
Qed.

Lemma weights_randint (n : nat) : weights_ge0 (np_random_randint F n).
Proof.
rewrite /np_random_randint; case: ifP => _; first exact: weights_dret.
by rewrite /uniform -map_comp all_map; apply/allP => x _ /=; rewrite divr_ge0 ?ler0n.
Qed.

Lemma weights_choice (a : seq nat) (p : seq F) : weights_ge0 (np_random_choice a p).
Proof.
rewrite /np_random_choice; case: ifPn; first by move=> _; apply: weights_dret.
rewrite !negb_or !negbK => /andP[/andP[_ p0] _]; rewrite all_map.
by elim: a p p0 => [|x a IH] [|q p] //= /andP[-> /IH].
Qed.

Lemma weights_rand_lt (t : F) : weights_ge0 (np_random_rand_lt t).
Proof.
rewrite /np_random_rand_lt /= andbT subr_ge0 ge_min lexx /=.
by rewrite le_min ler01 le_max lexx.
Qed.

Lemma Pr_ge0 T (d : dist F T) (P : T -> bool) : weights_ge0 d -> 0 <= Pr d P.
Proof.
elim: d => [|[p x] d IH] /=; first by rewrite Pr_nil.
by case/andP=> p0 /IH d0; rewrite Pr_cons /=; case: ifP => _; rewrite addr_ge0.
Qed.

(** An exception raised by the first computation is raised by the
    sequence. *)
Lemma Pr_drbind_raise T U (d : dist F (result T)) (k : T -> dist F (result U))
    (P : forall V, result V -> bool) :
  (forall V x, P V (Return x) = false) ->
  (forall V W e, P V (Raise e) = P W (Raise e)) ->
  weights_ge0 d -> (forall x, weights_ge0 (k x)) ->
  Pr d (P (T)) <= Pr (drbind d k) (P U).
Proof.
move=> Pret Praise d0 k0; rewrite Pr_drbind.
elim: d d0 => [_|[p [x|e]] d IH /= /andP[p0 /IH le]].
- by rewrite Pr_nil big_nil.
- by rewrite Pr_cons big_cons /= Pret add0r ler_wpDl // mulr_ge0 // Pr_ge0.
- rewrite Pr_cons big_cons /= (Praise T U) lerD //.
  by case: (P U _); rewrite ?mulr1 ?mulr0.
Qed.

End Weights.

(** ** Isolated nodes and absorbing configurations *)

Section UpdateEdges.

Variable F : realFieldType.
Variable exp : F -> F.
Implicit Types (pop : Population F) (trait : option int).

Local Notation weights_ge0 d := (all (fun px => 0 <= px.1) d).

Lemma weights_update_from pop death :
  weights_ge0
    (top <~ dret (np_max (payoff pop (neighbors (_structure pop) death))) ;;
     birth <~ np_random_choice (neighbors (_structure pop) death)
                [seq f / (\sum_(g <- [seq exp (_selection_intensity pop * (p - top))
                                      | p <- payoff pop (neighbors (_structure pop) death)]) g)
                | f <- [seq exp (_selection_intensity pop * (p - top))
                       | p <- payoff pop (neighbors (_structure pop) death)]] ;;
     dbind (np_random_rand_lt (_mutation_rate pop / 2)) (fun mutated =>
     dret (Return (UpdateEvent death birth mutated
                     (with_state pop
                        (set_nth 0 (_state pop) death
                           (if mutated then 1 - nth 0 (_state pop) birth
                            else nth 0 (_state pop) birth))))))).
Proof.
apply: weights_drbind => [|top]; first exact: weights_dret.
apply: weights_drbind => [|birth]; first exact: weights_choice.
apply: weights_dbind => [|mutated]; first exact: weights_rand_lt.
exact: weights_dret.
Qed.

Lemma weights_update_once pop : weights_ge0 (update_once exp pop).
Proof.
apply: weights_drbind => [|death]; first exact: weights_randint.
exact: weights_update_from.
Qed.

Lemma weights_update_loop trait (updates : seq nat) pop (mf : seq F) :
  weights_ge0 (update_loop exp trait updates pop mf).
Proof.
elim: updates pop mf => [|u us IH] pop mf /=.
  exact: (@weights_dret F _ (Return (pop, mf))).
apply: weights_drbind => [|ev]; first exact: weights_update_once.
exact: IH.
Qed.

Lemma raises_ValueError_Return (V : Type) (x : V) :
  raises_ValueError (Return x) = false.
Proof. by []. Qed.

Lemma raises_ValueError_Raise (V W : Type) (e : exn) :
  raises_ValueError (Raise e : result V) = raises_ValueError (Raise e : result W).
Proof. by []. Qed.

Lemma update_once_isolated pop death :
  (death < _population_size pop)%N ->
  neighbors (_structure pop) death = [::] ->
  (_population_size pop)%:R^-1
  <= Pr (update_once exp pop) (@raises_ValueError (update_event F)).
Proof.
move=> dN iso; have N0 : _population_size pop != 0%N.
  by rewrite -lt0n; apply: leq_ltn_trans dN.
have Ninv : 0 <= (_population_size pop)%:R^-1 :> F by rewrite invr_ge0 ler0n.
rewrite /update_once Pr_randint //.
rewrite (bigD1_seq death) ?mem_iota ?iota_uniq //=.
rewrite iso /= Pr_drbind /dret big_cons big_nil /= addr0 !mulr1.
rewrite lerDl sumr_ge0 // => d _; rewrite mulr_ge0 // Pr_ge0 //.
exact: weights_update_from.
Qed.

(** X19: when some node has no neighbours, an update of the population
    raises a ValueError with probability at least [1 / N]: the death node
    is that node with probability [1 / N], and [np.max] of its empty array
    of payoffs raises. *)
Theorem update_population_isolated pop trait n death :
  (death < _population_size pop)%N ->
  neighbors (_structure pop) death = [::] ->
  (_population_size pop)%:R^-1
  <= Pr (update_population exp pop trait n.+1)
        (@raises_ValueError (Population F * option (seq F))).
Proof.
move=> dN iso; apply: (le_trans (update_once_isolated dN iso)).
apply: (@le_trans _ _
          (Pr (update_loop exp trait (iota 0 n.+1) pop (nseq n.+1 0))
              (@raises_ValueError (Population F * seq F)))).
  apply: (Pr_drbind_raise (P := @raises_ValueError)) => //.
    exact: weights_update_once.
  by move=> ev; apply: weights_update_loop.
apply: (Pr_drbind_raise (P := @raises_ValueError)) => //.
  exact: weights_update_loop.
by move=> r; apply: weights_dret.
Qed.

End UpdateEdges.

Lemma update_population_isolated_witness :
  2%:R^-1 <= Pr (update_population positive_weight isolated_population
                   (Some 1%:Z) 1)
               (@raises_ValueError (Population rat * option (seq rat))).
Proof.
exact: (@update_population_isolated rat positive_weight isolated_population
          (Some 1%:Z) 0 0 isT erefl).
Defined.

Section Absorbing.

Variable F : realFieldType.
Variable exp : F -> F.
Hypothesis exp_gt0 : forall x, 0 < exp x.
Implicit Types (pop : Population F) (trait : option int) (T U : Type).

(** An outcome of a sequence with its weight: the product of the weights
    of the two steps. *)
Lemma In_dbind T U (d : dist F T) (k : T -> dist F U) p y :
  List.In (p, y) (dbind d k) ->
  exists q x p', [/\ List.In (q, x) d, List.In (p', y) (k x) & p = q * p'].
Proof.
rewrite /dbind; elim: d => [|[q x] d IH] //= inapp.
case: (List.in_app_or _ _ _ inapp) => [inl|/IH [q' [x' [p' [ind ink ->]]]]].
  have [[p' y'] [[<- <-] iny]] := proj1 (List.in_map_iff _ _ _) inl.
  by exists q, x, p'; split=> //; left.
by exists q', x', p'; split=> //; right.
Qed.

Lemma In_drbind T U (d : dist F (result T)) (k : T -> dist F (result U)) p y :
  List.In (p, Return y) (drbind d k) ->
  exists q x p', [/\ List.In (q, Return x) d, List.In (p', Return y) (k x)
                   & p = q * p'].
Proof.
rewrite /drbind => ind.
have [q [[x|e] [p' [inx ink ->]]]] := In_dbind ind; first by exists q, x, p'.
by case: ink => // -[].
Qed.

Lemma In_dret T (x y : T) p : List.In (p, y) (dret (F := F) x) -> y = x.
Proof. by case=> // -[]. Qed.

(** Without mutation, an outcome with a mutated offspring has weight 0. *)
Lemma update_once_mutated_weight pop p ev :
  _mutation_rate pop = 0 ->
  List.In (p, Return ev) (update_once exp pop) -> ev_mutated ev -> p = 0.
Proof.
move=> mu0; rewrite /update_once.
move=> in1; have [q1 [death [p1 [_ in2 ->]]]] := In_drbind in1.
have [q2 [top [p2 [_ in3 ->]]]] := In_drbind in2.
have [q3 [birth [p3 [_ in4 ->]]]] := In_drbind in3.
have [q4 [mutated [p4 [inm inev ->]]]] := In_dbind in4.
have [->] /= := In_dret inev => m.
move: inm; rewrite m mu0 mul0r /np_random_rand_lt.
rewrite (max_idPl (lexx 0)) (min_idPr ler01).
by case=> [[<-]|[|]] //; rewrite mul0r !mulr0.
Qed.

Lemma set_nth_nseq (n k : nat) (t : int) :
  (k < n)%N -> set_nth 0 (nseq n t) k t = nseq n t.
Proof.
move=> kn; apply: (@eq_from_nth _ 0).
  by rewrite size_set_nth size_nseq; apply/maxn_idPr.
move=> j _; rewrite nth_set_nth /=; case: eqP => // ->.
by rewrite nth_nseq kn.
Qed.

Lemma replaced_monomorphic pop (t : int) death birth :
  valid_population pop -> _state pop = nseq (_population_size pop) t ->
  (death < _population_size pop)%N ->
  birth \in neighbors (_structure pop) death ->
  replaced pop death birth false = pop.
Proof.
case=> Npos sz nb rate mono dN bn; have [_ _ /allP/(_ _ bn) bN] := nb _ dN.
rewrite /replaced /offspring mono nth_nseq bN set_nth_nseq // -mono.
exact: with_state_id.
Qed.

Lemma big_In (X : Type) (s : seq X) (f g : X -> F) :
  (forall x, List.In x s -> f x = g x) ->
  \sum_(x <- s) f x = \sum_(x <- s) g x.
Proof.
elim: s => [|x s IH] fg; first by rewrite !big_nil.
rewrite !big_cons fg; first by left.
by rewrite IH // => y ys; apply: fg; right.
Qed.

Lemma Pr_indicator T (d : dist F T) (P : T -> bool) :
  Pr d P = \sum_(px <- d) px.1 * (P px.2)%:R.
Proof.
rewrite /Pr big_mkcond /=; apply: eq_bigr => px _.
by case: (P px.2); rewrite ?mulr1 ?mulr0.
Qed.

Lemma update_loop_absorbing pop trait (t : int) (updates : seq nat) (mf : seq F) :
  valid_population pop -> _mutation_rate pop = 0 ->
  _state pop = nseq (_population_size pop) t ->
  Pr (update_loop exp trait updates pop mf) (returns_state (_state pop)) = 1.
Proof.
move=> vp mu0 mono; elim: updates mf => [|u us IH] mf /=.
  by rewrite Pr_dret /= eqxx.
rewrite Pr_drbind -[RHS](mass_update_once exp_gt0 vp) /mass [in RHS]/Pr /=.
apply: big_In => -[p r] inr /=.
have [death [birth [mutated [dN bn er]]]] :
    exists death birth mutated,
      [/\ (death < _population_size pop)%N,
          birth \in neighbors (_structure pop) death
        & r = drawn pop death birth mutated].
  by apply: (listed_update_once exp_gt0 vp); exists p.
case: mutated er inr => -> inr.
  by rewrite (update_once_mutated_weight mu0 inr) // mul0r.
by rewrite /drawn (replaced_monomorphic vp mono dN bn) /= IH mulr1.
Qed.

(** X20: without mutation, a population in which every individual has the
    same trait stays in that configuration: after any number of updates
    [update_population] has returned with the configuration unchanged,
    with probability 1. *)
Theorem neutral_monomorphic_absorbing pop trait n (t : int) :
  valid_population pop -> _mutation_rate pop = 0 ->
  _state pop = nseq (_population_size pop) t ->
  Pr (update_population exp pop trait n) (returns_state (_state pop)) = 1.
Proof.
move=> vp mu0 mono.
rewrite -[RHS](update_loop_absorbing trait (iota 0 n) (nseq n 0) vp mu0 mono).
rewrite /update_population Pr_drbind [RHS]Pr_indicator.
by apply: eq_bigr => -[p [x|e]] _ //=; rewrite Pr_dret.
Qed.

End Absorbing.

Lemma valid_producers : valid_population producers.
Proof. by split=> //; do 3![case=> //]. Qed.

Lemma neutral_monomorphic_absorbing_witness :
  Pr (update_population positive_weight producers (Some 1%:Z) 5)
     (returns_state (nseq 3 1%:Z))
  = 1.
Proof.
exact: (neutral_monomorphic_absorbing positive_weight_gt0 (Some 1%:Z) 5
          (t := 1%:Z) valid_producers erefl erefl).
Defined.

(** ** Simulations with valid arguments *)

Section SimulationReturns.

Variable F : realFieldType.
Variable exp : F -> F.
Hypothesis exp_gt0 : forall x, 0 < exp x.
Implicit Types (pop : Population F) (trait : option int) (T : Type).

Lemma Pr_all T (d : dist F T) (P : T -> bool) :
  (forall r, listed d r -> P r) -> Pr d P = mass d.
Proof.
rewrite /mass; elim: d => [|[p r] d IH] all_P; first by rewrite !Pr_nil.
rewrite !Pr_cons /= all_P; first by exists p; left.
by rewrite IH // => r' [q inq]; apply: all_P; exists q; right.
Qed.

Lemma mass_randint_array (n : nat) : mass (np_random_randint_array F n) = 1.
Proof.
elim: n => [|n IH] /=; first exact: mass_dret.
rewrite mass_dbind => [x _|].
  by rewrite mass_dbind // => s _; apply: mass_dret.
rewrite /mass /Pr /uniform /= !big_cons big_nil /=.
by field.
Qed.

Lemma mass_update_population pop trait n :
  valid_population pop -> mass (update_population exp pop trait n) = 1.
Proof.
move=> vp; rewrite /update_population mass_drbind ?mass_update_loop // => x _.
exact: mass_dret.
Qed.

(** X24: on a graph whose nodes all have neighbours, with a valid label, a
    valid selection intensity and a mutation rate in [0, 1], the simulation
    of a mutation rate for a trait returns a value with probability 1. *)
Theorem run_single_simulation_returns G (good intensity : pyval F) b c n
    (t : int) mu :
  valid_graph G -> valid_good good -> valid_intensity intensity ->
  0 <= mu <= 1 ->
  Pr (run_single_simulation exp G good b c intensity n (Some t) mu)
     (fun r => returns r)
  = 1.
Proof.
move=> vG vg vi mu01.
have init state : listed (np_random_randint_array F (number_of_nodes G)) state ->
    exists2 pop, valid_population pop
      & Population_init G state good b c (PyFloat mu) intensity = Return pop.
  move/listed_randint_array => sz.
  have := @Population_init_valid F G state good (PyFloat mu) intensity b c.
  rewrite /valid_state sz eqxx /valid_rate /= => /(_ isT vg mu01 vi) e.
  by eexists; last exact: e; apply: (valid_constructed vG e).
rewrite Pr_all => [r|]; rewrite /run_single_simulation.
  move=> l; have [state /init [pop vp ->] {}l] := listed_dbind l.
  have [[pop1 lp {}l]|[e le]] := listed_drbind l; last by have := listed_dret le.
  have [epop] := listed_dret lp; move: l; rewrite {pop1 lp}epop => l.
  have [[[pop' mf] lu {}l]|[e le]] := listed_drbind l; last first.
    have := mass_update_population (Some t) n vp.
    move: le; rewrite /update_population => le.
    have [[x _ lx]|[e' le' _]] := listed_drbind le; first by have := listed_dret lx.
    have [|pops [_ _]] := listed_update_loop exp_gt0 vp _ le' => //.
    by rewrite size_nseq add0n.
  have [pops [_ _ _ emf]] := listed_update_population exp_gt0 vp lu.
  by move: l; rewrite emf /= => l; rewrite (listed_dret l).
rewrite mass_dbind ?mass_randint_array // => state /init [pop vp ->].
rewrite mass_drbind ?mass_dret // => pop1 lp.
have [epop] := listed_dret lp; rewrite {pop1 lp}epop.
rewrite mass_drbind ?mass_update_population // => -[pop' [mf|]] _ /=;
  exact: mass_dret.
Qed.

End SimulationReturns.

Lemma run_single_simulation_returns_witness :
  Pr (run_single_simulation positive_weight path_graph (PyStr "PP") 2 1
        (PyFloat (1 / 10)) 4 (Some 1%:Z) (1 / 2))
     (fun r => returns r)
  = 1.
Proof.
exact: (run_single_simulation_returns positive_weight_gt0 2 1 4 1%:Z
          path_graph_valid (good := PyStr "PP") (intensity := PyFloat (1 / 10))
          (mu := 1 / 2) isT isT isT).
Defined.

(** ** One update moves the frequency by at most 1/N *)

Section FrequencySteps.

Variable F : realFieldType.
Variable exp : F -> F.
Hypothesis exp_gt0 : forall x, 0 < exp x.
Implicit Types (pop : Population F) (t : int).

Lemma count_set_nth (P : pred int) (s : seq int) (k : nat) (y : int) :
  (k < size s)%N ->
  (count P (set_nth (0 : int) s k y) + P (nth (0 : int) s k)
   = count P s + P y)%N.
Proof.
elim: s k => [|x s IH] [|k] //=.
  by move=> _; rewrite addnAC (addnC (P y)) addnAC.
by rewrite ltnS => /IH {}IH; rewrite -addnA IH addnA.
Qed.

Lemma step_frequency pop pop' t :
  valid_population pop -> death_birth_step pop pop' ->
  `|mean_frequency pop' (Some t) - mean_frequency pop (Some t)|
  <= (_population_size pop)%:R^-1.
Proof.
case=> Npos sz nb rate [death [birth [mutated [dN bn ->]]]].
rewrite !mean_frequency_count /= -mulrBl normrM normfV [`|_%:R|]ger0_norm ?ler0n //.
rewrite ler_pdivrMr ?ltr0n // mulVf ?pnatr_eq0 -?lt0n //.
have := @count_set_nth (pred1 t) (_state pop) death
  (offspring pop birth mutated); rewrite sz => /(_ dN).
move: (count _ (set_nth _ _ _ _)) (count _ (_state pop)) => c' c.
move/(congr1 (fun n : nat => n%:R : F)); rewrite !natrD.
move: (c'%:R) (c%:R) => x y.
by case: (pred1 t _) (pred1 t _) => [] [] /= E; rewrite ler_norml;
   apply/andP; split; lra.
Qed.

Lemma trajectory_steps pop pops t :
  valid_population pop -> trajectory pop pops ->
  forall k, (k < size pops)%N ->
    let s := mean_frequency pop (Some t)
             :: [seq mean_frequency p (Some t) | p <- pops] in
    `|nth 0 s k.+1 - nth 0 s k| <= (_population_size pop)%:R^-1.
Proof.
elim: pops pop => [|pop1 pops IH] pop vp //= [st tr] [|k] /=.
  by move=> _; apply: step_frequency.
rewrite ltnS => ks; have [vp1 e1 _ _] := step_invariants vp st.
have -> : _population_size pop = _population_size pop1 by rewrite e1.
exact: (IH pop1 vp1 tr k ks).
Qed.

(** X25: between two consecutive updates the mean frequency of a trait
    moves by at most [1 / N]: the first entry of the returned array is
    within [1 / N] of the initial frequency, and each entry within [1 / N]
    of the entry before it. *)
Theorem update_population_frequency_steps pop t n pop' mf :
  valid_population pop ->
  listed (update_population exp pop (Some t) n) (Return (pop', Some mf)) ->
  forall k, (k < n)%N ->
    let s := mean_frequency pop (Some t) :: mf in
    `|nth 0 s k.+1 - nth 0 s k| <= (_population_size pop)%:R^-1.
Proof.
move=> vp /(listed_update_population exp_gt0 vp) [pops [tr sz _ [->]]] k kn.
by apply: trajectory_steps => //; rewrite sz.
Qed.

End FrequencySteps.

Lemma update_population_frequency_steps_witness :
  `|mean_frequency (replaced path_population 1 0 true) (Some 1%:Z)
    - mean_frequency path_population (Some 1%:Z)| <= 3%:R^-1 :> rat.
Proof.
exact: (update_population_frequency_steps positive_weight_gt0
          valid_path_population
          (listed_update_population_one positive_weight_gt0 1%:Z true
             valid_path_population (death := 1) (birth := 0) isT isT)
          (k := 0) isT).
Defined.
